(** * Boids flocking simulation: the GPGPU kernels and their properties

    Shallow embedding of
      - [src/shaders/positionFragment.glsl]  (position compute shader),
      - [src/shaders/velocityFragment.glsl]  (velocity compute shader),
      - the GPGPU wiring and the texture initialisers of [src/main.ts].

    Shader floats are idealised as real numbers ([R]); floats that only ever
    hold integers (loop counter, stride, texel indices) are integers ([Z]);
    fragment and texture coordinates, which are half-integers and quotients
    of them, are rationals ([Q]), so that the sampling pattern is executable.
    A GLSL [normalize] of the zero vector is undefined (0/0, a NaN on real
    hardware): it is the one partial operation of the model, and shader code
    that reaches it evaluates to [None]. *)

From Stdlib Require Import ZArith QArith Qround Qabs Reals Lra Lia List Bool FinFun.
Import ListNotations.

Local Open Scope R_scope.

(* ------------------------------------------------------------------ *)
(** ** Vectors *)

Module Vec.

Record vec3 : Type := mkVec3 { vx : R; vy : R; vz : R }.
Record vec4 : Type := mkVec4 { xyz : vec3; vw : R }.

(** [vec3(s)]: the GLSL constructor from one scalar. *)
Definition splat (s : R) : vec3 := mkVec3 s s s.

Definition zero : vec3 := splat 0.

Definition add (a b : vec3) : vec3 :=
  mkVec3 (vx a + vx b) (vy a + vy b) (vz a + vz b).

Definition sub (a b : vec3) : vec3 :=
  mkVec3 (vx a - vx b) (vy a - vy b) (vz a - vz b).

(** [v * s] for a scalar [s]. *)
Definition scale (v : vec3) (s : R) : vec3 :=
  mkVec3 (vx v * s) (vy v * s) (vz v * s).

(** [v / s] for a scalar [s]. *)
Definition divs (v : vec3) (s : R) : vec3 :=
  mkVec3 (vx v / s) (vy v / s) (vz v / s).

(** [v + s]: GLSL adds a scalar to every component. *)
Definition adds (v : vec3) (s : R) : vec3 :=
  mkVec3 (vx v + s) (vy v + s) (vz v + s).

Definition dot (a b : vec3) : R :=
  vx a * vx b + vy a * vy b + vz a * vz b.

Definition length (v : vec3) : R := sqrt (dot v v).

(** [normalize]: undefined on the zero vector. *)
Definition normalize (v : vec3) : option vec3 :=
  if Req_dec_T (length v) 0 then None else Some (divs v (length v)).

End Vec.

Import Vec.

Declare Scope vec_scope.
Delimit Scope vec_scope with vec.
Bind Scope vec_scope with vec3.
Infix "+v" := add (at level 50, left associativity) : vec_scope.
Infix "-v" := sub (at level 50, left associativity) : vec_scope.
Infix "*s" := scale (at level 40, left associativity) : vec_scope.
Infix "/s" := divs (at level 40, left associativity) : vec_scope.
Local Open Scope vec_scope.

(* ------------------------------------------------------------------ *)
(** ** A small error monad for shader code that may hit an undefined value *)

Definition bind {A B : Type} (m : option A) (k : A -> option B) : option B :=
  match m with
  | Some a => k a
  | None => None
  end.

Notation "x <- m ;; k" := (bind m (fun x => k))
  (at level 61, m at next level, right associativity).

(* ------------------------------------------------------------------ *)
(** ** GLSL built-ins used by the shaders *)

Module Glsl.

(** [floor] on reals, as a real. *)
Definition floor (x : R) : R := IZR (Int_part x).

Definition fract (x : R) : R := x - floor x.

Definition mix (a b t : R) : R := a * (1 - t) + b * t.

Definition clamp (x lo hi : R) : R := Rmin (Rmax x lo) hi.

Definition smoothstep (edge0 edge1 x : R) : R :=
  let t := clamp ((x - edge0) / (edge1 - edge0)) 0 1 in
  t * t * (3 - 2 * t).

Definition floor3 (p : vec3) : vec3 := mkVec3 (floor (vx p)) (floor (vy p)) (floor (vz p)).
Definition fract3 (p : vec3) : vec3 := mkVec3 (fract (vx p)) (fract (vy p)) (fract (vz p)).
Definition sin3 (p : vec3) : vec3 := mkVec3 (sin (vx p)) (sin (vy p)) (sin (vz p)).

(** A render-target texture: one [vec4] per texel, addressed by texel
    column and row. *)
Definition Texture : Type := Z -> Z -> vec4.

(** The compute textures are [resolution = (W, H)] texels large, sampled with
    nearest filtering and ([main.ts], "Wrap mode for textures") repeat
    wrapping: the texel under [(u, v)] is [floor(u*W) mod W], [floor(v*H) mod H]. *)
Definition texel (size : Z) (c : Q) : Z :=
  (Qfloor (c * inject_Z size) mod size)%Z.

Definition texture2D (W H : Z) (tex : Texture) (uv : Q * Q) : vec4 :=
  tex (texel W (fst uv)) (texel H (snd uv)).

(** [gl_FragCoord.xy] of the fragment that covers texel [(x, y)]: the texel
    centre. *)
Definition fragCoord (x y : Z) : Q * Q :=
  ((inject_Z x + (1 # 2))%Q, (inject_Z y + (1 # 2))%Q).

End Glsl.

Import Glsl.

(* ------------------------------------------------------------------ *)
(** ** Neighbour sampling: the stride loop of the velocity shader *)

Module Sampler.

(** [const int MAX_SAMPLES = 300;] *)
Definition MAX_SAMPLES : Z := 300.

(** [TOTAL_PARTICLES = TEXTURE_WIDTH * TEXTURE_HEIGHT] *)
Definition TOTAL_PARTICLES (W H : Z) : Z := (W * H)%Z.

(** [float stride = max(1.0, floor(TOTAL_PARTICLES / float(MAX_SAMPLES)));] *)
Definition stride (W H : Z) : Z :=
  Z.max 1 (TOTAL_PARTICLES W H / MAX_SAMPLES).

(** [float idx = float(i) * stride;] *)
Definition idx (W H i : Z) : Z := (i * stride W H)%Z.

(** [float px = mod(idx, TEXTURE_WIDTH);] *)
Definition px (W H i : Z) : Z := (idx W H i mod W)%Z.

(** [float py = floor(idx / TEXTURE_WIDTH);] *)
Definition py (W H i : Z) : Z := (idx W H i / W)%Z.

(** [vec2 neighborUV = vec2((px + 0.5) / TEXTURE_WIDTH, (py + 0.5) / TEXTURE_HEIGHT);] *)
Definition neighborUV (W H i : Z) : Q * Q :=
  (((inject_Z (px W H i) + (1 # 2)) / inject_Z W)%Q,
   ((inject_Z (py W H i) + (1 # 2)) / inject_Z H)%Q).

(** The "Skip self" test:
    [abs(px - selfPixel.x) < 0.5 && abs(py - selfPixel.y) < 0.5]
    with [selfPixel = gl_FragCoord.xy]. *)
Definition Qltb (a b : Q) : bool := if Qlt_le_dec a b then true else false.

Definition isSelf (W H i : Z) (selfPixel : Q * Q) : bool :=
  Qltb (Qabs (inject_Z (px W H i) - fst selfPixel)) (1 # 2)
  && Qltb (Qabs (inject_Z (py W H i) - snd selfPixel)) (1 # 2).

(** The values of the loop counter: [for (int i = 0; i < MAX_SAMPLES; i++)]. *)
Definition iterations : list Z :=
  map Z.of_nat (seq 0 (Z.to_nat MAX_SAMPLES)).

(** The agent ids the loop goes on to read for the fragment at [selfPixel]:
    the iterations that are not skipped, each as the id [py * W + px] of the
    texel it addresses. *)
Definition sampledIds (W H : Z) (selfPixel : Q * Q) : list Z :=
  flat_map (fun i => if isSelf W H i selfPixel then []
                     else [(py W H i * W + px W H i)%Z])
           iterations.

(** Agent id of a texel, and back ([id -> (id mod W, id div W)]). *)
Definition idOfTexel (W x y : Z) : Z := (y * W + x)%Z.

End Sampler.

Import Sampler.

(* ------------------------------------------------------------------ *)
(** ** Noise field of the velocity shader *)

Module Noise.

(** [hash3]: pseudo-random gradient of a lattice point. *)
Definition hash3 (p : vec3) : vec3 :=
  let p := mkVec3 (dot p (mkVec3 127.1 311.7 74.7))
                  (dot p (mkVec3 269.5 183.3 246.1))
                  (dot p (mkVec3 113.5 271.9 124.6)) in
  adds (fract3 (sin3 p *s 43758.5453123) *s 2.0) (-1.0).

(** The lattice-corner term [dot(hash3(i + c), f - c)] of [noise3D]. *)
Definition corner (i f c : vec3) : R := dot (hash3 (i +v c)) (f -v c).

(** [noise3D]: 3D gradient noise. *)
Definition noise3D (p : vec3) : R :=
  let i := floor3 p in
  let f := fract3 p in
  let u := mkVec3 (vx f * vx f * (3.0 - 2.0 * vx f))
                  (vy f * vy f * (3.0 - 2.0 * vy f))
                  (vz f * vz f * (3.0 - 2.0 * vz f)) in
  mix
    (mix (mix (corner i f (mkVec3 0 0 0)) (corner i f (mkVec3 1 0 0)) (vx u))
         (mix (corner i f (mkVec3 0 1 0)) (corner i f (mkVec3 1 1 0)) (vx u))
         (vy u))
    (mix (mix (corner i f (mkVec3 0 0 1)) (corner i f (mkVec3 1 0 1)) (vx u))
         (mix (corner i f (mkVec3 0 1 1)) (corner i f (mkVec3 1 1 1)) (vx u))
         (vy u))
    (vz u).

Section Curl.

(** The scalar field the curl is taken of; the shader uses [noise3D]. *)
Variable noise : vec3 -> R.

(** [float e = 0.1;] *)
Definition e : R := 0.1.

(** [curlNoise]: the six central differences [a], [b], [c], [d], [ee], [f]
    in the order the shader computes them. *)
Definition curlNoiseOf (p : vec3) : vec3 :=
  let a  := (noise (p +v mkVec3 0 e 0) - noise (p -v mkVec3 0 e 0)) / (2.0 * e) in
  let b  := (noise (p +v mkVec3 0 0 e) - noise (p -v mkVec3 0 0 e)) / (2.0 * e) in
  let c  := (noise (p +v mkVec3 e 0 0) - noise (p -v mkVec3 e 0 0)) / (2.0 * e) in
  let d  := (noise (p +v mkVec3 0 0 e) - noise (p -v mkVec3 0 0 e)) / (2.0 * e) in
  let ee := (noise (p +v mkVec3 0 e 0) - noise (p -v mkVec3 0 e 0)) / (2.0 * e) in
  let f  := (noise (p +v mkVec3 e 0 0) - noise (p -v mkVec3 e 0 0)) / (2.0 * e) in
  mkVec3 (a - d) (b - f) (c - ee).

End Curl.

Definition curlNoise : vec3 -> vec3 := curlNoiseOf noise3D.

End Noise.

Import Noise.

(* ------------------------------------------------------------------ *)
(** ** Velocity compute shader *)

Module VelocityShader.

Record Uniforms : Type := mkUniforms {
  uDelta : R;
  uTime : R;
  uSeparationWeight : R;
  uAlignmentWeight : R;
  uCohesionWeight : R;
  uMaxSpeed : R;
  uPerceptionRadius : R;
  uBoundaryRadius : R;
  uSeparationRadius : R;
  uTurbulence : R
}.

(** The boids accumulators and their counters. *)
Record Accum : Type := mkAccum {
  separation : vec3;
  alignment : vec3;
  cohesion : vec3;
  separationCount : R;
  alignmentCount : R;
  cohesionCount : R
}.

Definition accum0 : Accum := mkAccum zero zero zero 0 0 0.

Definition Rltb (a b : R) : bool := if Rlt_dec a b then true else false.
Definition Rgtb (a b : R) : bool := Rltb b a.

(** A [for] loop over the given counter values whose body may be undefined. *)
Fixpoint forEach {S : Type} (body : S -> Z -> option S) (l : list Z) (s : S)
  : option S :=
  match l with
  | [] => Some s
  | i :: l' => s' <- body s i;; forEach body l' s'
  end.

Section Kernel.

Variables W H : Z.                       (* resolution.x, resolution.y *)
Variables texturePosition textureVelocity : Texture.
Variable u : Uniforms.
Variable gl_FragCoord : Q * Q.

(** The separation update of one sampled neighbour. *)
Definition addSeparation (diff : vec3) (dist : R) (acc : Accum) : option Accum :=
  if Rgtb dist 0.0 && Rltb dist (uSeparationRadius u) then
    n <- normalize diff;;
    Some (mkAccum (separation acc +v n /s dist) (alignment acc) (cohesion acc)
                  (separationCount acc + 1.0) (alignmentCount acc)
                  (cohesionCount acc))
  else Some acc.

(** The alignment and cohesion update of one sampled neighbour. *)
Definition addAlignCohesion (neighborPos neighborVel : vec3) (dist : R)
    (acc : Accum) : Accum :=
  if Rgtb dist 0.0 && Rltb dist (uPerceptionRadius u) then
    mkAccum (separation acc) (alignment acc +v neighborVel)
            (cohesion acc +v neighborPos)
            (separationCount acc) (alignmentCount acc + 1.0)
            (cohesionCount acc + 1.0)
  else acc.

(** Body of the stride loop for counter value [i]. *)
Definition loopBody (myPos : vec3) (acc : Accum) (i : Z) : option Accum :=
  if isSelf W H i gl_FragCoord then Some acc            (* continue *)
  else
    let neighborPos := xyz (texture2D W H texturePosition (neighborUV W H i)) in
    let neighborVel := xyz (texture2D W H textureVelocity (neighborUV W H i)) in
    let diff := myPos -v neighborPos in
    let dist := length diff in
    acc <- addSeparation diff dist acc;;
    Some (addAlignCohesion neighborPos neighborVel dist acc).

Definition sampleLoop (myPos : vec3) : option Accum :=
  forEach (loopBody myPos) iterations accum0.

(** [float sampleRatio = TOTAL_PARTICLES / float(MAX_SAMPLES);] *)
Definition sampleRatio : R := IZR (TOTAL_PARTICLES W H) / IZR MAX_SAMPLES.

(** [if (separationCount > 0.0) { ... accel += ...; }] *)
Definition applySeparation (acc : Accum) (accel : vec3) : vec3 :=
  if Rgtb (separationCount acc) 0.0 then
    let separation := separation acc /s separationCount acc in
    let scaledSepCount := separationCount acc * sampleRatio in
    accel +v separation *s uSeparationWeight u *s Rmin (scaledSepCount / 10.0) 3.0
  else accel.

(** [if (alignmentCount > 0.0) { ... accel += alignSteer * uAlignmentWeight; }] *)
Definition applyAlignment (myVel : vec3) (acc : Accum) (accel : vec3)
  : option vec3 :=
  if Rgtb (alignmentCount acc) 0.0 then
    let alignment := alignment acc /s alignmentCount acc in
    let alignSteer := alignment -v myVel in
    let alignLen := length alignSteer in
    alignSteer <- (if Rgtb alignLen 0.001 then normalize alignSteer
                   else Some alignSteer);;
    Some (accel +v alignSteer *s uAlignmentWeight u)
  else Some accel.

(** [if (cohesionCount > 0.0) { ... accel += toCenter * uCohesionWeight; }] *)
Definition applyCohesion (myPos : vec3) (acc : Accum) (accel : vec3)
  : option vec3 :=
  if Rgtb (cohesionCount acc) 0.0 then
    let cohesion := cohesion acc /s cohesionCount acc in
    let toCenter := cohesion -v myPos in
    let toCenterLen := length toCenter in
    toCenter <- (if Rgtb toCenterLen 0.001 then
                   let steerStrength :=
                     smoothstep 0.0 (uPerceptionRadius u) toCenterLen in
                   n <- normalize toCenter;; Some (n *s steerStrength)
                 else Some toCenter);;
    Some (accel +v toCenter *s uCohesionWeight u)
  else Some accel.

(** Curl-noise turbulence. *)
Definition applyTurbulence (myPos : vec3) (accel : vec3) : vec3 :=
  let noisePos := adds (myPos *s 0.008) (uTime u * 0.15) in
  let turbForce := curlNoise noisePos *s uTurbulence u in
  accel +v turbForce.

(** Global centroid pull. *)
Definition applyCentroidPull (myPos : vec3) (accel : vec3) : option vec3 :=
  let distFromCenter := length myPos in
  let globalPull :=
    smoothstep (uBoundaryRadius u * 0.5) (uBoundaryRadius u) distFromCenter in
  n <- normalize (myPos +v splat 0.0001);;
  Some (accel -v n *s globalPull *s uCohesionWeight u *s 0.15).

(** Soft spherical boundary constraint. *)
Definition applyBoundary (myPos : vec3) (accel : vec3) : option vec3 :=
  let distFromCenter := length myPos in
  if Rgtb distFromCenter (uBoundaryRadius u * 0.7) then
    let t := (distFromCenter - uBoundaryRadius u * 0.7)
             / (uBoundaryRadius u * 0.3) in
    let t := clamp t 0.0 1.0 in
    let strength := t * t * t * uMaxSpeed u * 2.0 in
    n <- normalize myPos;;
    Some (accel -v n *s strength)
  else Some accel.

(** The acceleration summed from all forces, in shader order. *)
Definition acceleration (myPos myVel : vec3) : option vec3 :=
  acc <- sampleLoop myPos;;
  let accel := zero in
  let accel := applySeparation acc accel in
  accel <- applyAlignment myVel acc accel;;
  accel <- applyCohesion myPos acc accel;;
  let accel := applyTurbulence myPos accel in
  accel <- applyCentroidPull myPos accel;;
  applyBoundary myPos accel.

(** "Clamp speed" and "Enforce minimum speed"; [speed] is measured once,
    before either rescaling. *)
Definition clampSpeed (newVel : vec3) : option vec3 :=
  let speed := length newVel in
  newVel <- (if Rgtb speed (uMaxSpeed u) then
               n <- normalize newVel;; Some (n *s uMaxSpeed u)
             else Some newVel);;
  let minSpeed := uMaxSpeed u * 0.2 in
  if Rltb speed minSpeed && Rgtb speed 0.001 then
    n <- normalize newVel;; Some (n *s minSpeed)
  else Some newVel.

(** [vec2 uv = gl_FragCoord.xy / resolution.xy;] *)
Definition uv : Q * Q :=
  ((fst gl_FragCoord / inject_Z W)%Q, (snd gl_FragCoord / inject_Z H)%Q).

(** [main] of the velocity shader; the result is [gl_FragColor]. *)
Definition main : option vec4 :=
  let myPos := xyz (texture2D W H texturePosition uv) in
  let myVel := xyz (texture2D W H textureVelocity uv) in
  accel <- acceleration myPos myVel;;
  let newVel := myVel +v accel *s uDelta u in
  newVel <- clampSpeed newVel;;
  Some (mkVec4 newVel 1.0).

End Kernel.

End VelocityShader.

(* ------------------------------------------------------------------ *)
(** ** Position compute shader *)

Module PositionShader.

Section Kernel.

Variables W H : Z.
Variables texturePosition textureVelocity : Texture.
Variable uDelta : R.
Variable gl_FragCoord : Q * Q.

Definition uv : Q * Q :=
  ((fst gl_FragCoord / inject_Z W)%Q, (snd gl_FragCoord / inject_Z H)%Q).

(** [main] of the position shader; the result is [gl_FragColor]. *)
Definition main : vec4 :=
  let posData := texture2D W H texturePosition uv in
  let velData := texture2D W H textureVelocity uv in
  let pos := xyz posData in
  let vel := xyz velData in
  let pos := pos +v vel *s uDelta in
  mkVec4 pos (vw posData).

End Kernel.

End PositionShader.

(* ------------------------------------------------------------------ *)
(** ** GPGPU wiring of [main.ts] *)

Module Gpgpu.

(** The current render targets of the two compute variables
    [texturePosition] and [textureVelocity]: one generation of agent state. *)
Record Generation : Type := mkGeneration {
  texturePosition : Texture;
  textureVelocity : Texture
}.

(** Modelled from the spec: [GPUComputationRenderer.compute] of the three.js
    add-on, which [animate] calls once per frame and whose source is not part
    of the repository.  §2: "VelocityUpdateKernel writes next velocity →
    PositionUpdateKernel reads next velocity + current position → writes
    next position"; §5: within a tick the velocity kernel has "read-only
    access to the previous generation's full state", and the "velocity
    update for generation g+1 must complete for all agents before position
    update for generation g+1 begins".  Each shader runs once per texel, at
    the texel centre.  [main.ts] sets the same [delta] as [uDelta] of both
    shaders.

    [computeVelocity] is the texel [(x, y)] of the next velocity target,
    computed from the current generation; [computePosition] is the texel
    [(x, y)] of the next position target, computed from the current
    positions and the next velocities. *)
Definition computePosition (W H : Z) (cur : Generation)
    (nextVelocity : Texture) (delta : R) (x y : Z) : vec4 :=
  PositionShader.main W H (texturePosition cur) nextVelocity delta
                      (fragCoord x y).

Definition computeVelocity (W H : Z) (cur : Generation)
    (u : VelocityShader.Uniforms) (x y : Z) : option vec4 :=
  VelocityShader.main W H (texturePosition cur) (textureVelocity cur) u
                      (fragCoord x y).


(** The velocity-shader uniforms as [main.ts] first sets them from [params];
    [uDelta] and [uTime] are set every frame. *)
Definition initialUniforms (delta time : R) : VelocityShader.Uniforms :=
  VelocityShader.mkUniforms delta time 25.0 8.0 12.0 50.0 120.0 350.0 25.0 15.0.

(** The same with the four sliders "Separation", "Alignment", "Cohesion"
    and "Turbulence" of the control panel moved to 0. *)
Definition zeroForceUniforms (delta time : R) : VelocityShader.Uniforms :=
  VelocityShader.mkUniforms delta time 0 0 0 50.0 120.0 350.0 25.0 0.

(** [delta = Math.min(delta, 0.05)] in [animate]. *)
Definition clampDelta (delta : R) : R := Rmin delta 0.05.

End Gpgpu.

(* ------------------------------------------------------------------ *)
(** ** Initial textures ([fillPositionTexture], [fillVelocityTexture]) *)

Module Init.

(** [params] of [main.ts]: the fields the initialisers read. *)
Definition params_maxSpeed : R := 50.0.
Definition params_boundaryRadius : R := 350.0.

(** [Math.random]: a stream of draws and how many were taken so far. *)
Record Rng : Type := mkRng { draws : nat -> R; taken : nat }.

Definition random (g : Rng) : R * Rng :=
  (draws g (taken g), mkRng (draws g) (S (taken g))).

(** [data[i] = v] on a typed array: a store outside the array is ignored. *)
Fixpoint store (data : list R) (i : nat) (v : R) : list R :=
  match data, i with
  | [], _ => []
  | _ :: t, O => v :: t
  | h :: t, S j => h :: store t j v
  end.

(** Body of the loop of [fillPositionTexture] at index [i]. *)
Definition fillPositionStep (g : Rng) (data : list R) (i : nat)
  : list R * Rng :=
  let spread := params_boundaryRadius * 0.6 in
  let '(r0, g) := random g in
  let r := r0 * spread in
  let '(r1, g) := random g in
  let theta := r1 * PI * 2 in
  let '(r2, g) := random g in
  let phi := acos (2 * r2 - 1) in
  let data := store data (i + 0) (r * sin phi * cos theta) in
  let data := store data (i + 1) (r * sin phi * sin theta) in
  let data := store data (i + 2) (r * cos phi) in
  let data := store data (i + 3) 1.0 in
  (data, g).

(** Body of the loop of [fillVelocityTexture] at index [i]. *)
Definition fillVelocityStep (g : Rng) (data : list R) (i : nat)
  : list R * Rng :=
  let initSpeed := params_maxSpeed * 0.3 in
  let '(r1, g) := random g in
  let theta := r1 * PI * 2 in
  let '(r2, g) := random g in
  let phi := acos (2 * r2 - 1) in
  let data := store data (i + 0) (initSpeed * sin phi * cos theta) in
  let data := store data (i + 1) (initSpeed * sin phi * sin theta) in
  let data := store data (i + 2) (initSpeed * cos phi) in
  let data := store data (i + 3) 1.0 in
  (data, g).

(** [for (let i = 0; i < data.length; i += 4) body]: [n] bounds the number
    of iterations still to run. *)
Fixpoint fillFrom (step : Rng -> list R -> nat -> list R * Rng)
    (n : nat) (g : Rng) (data : list R) (i : nat) : list R * Rng :=
  match n with
  | O => (data, g)
  | S m =>
      if (i <? List.length data)%nat then
        let '(data, g) := step g data i in
        fillFrom step m g data (i + 4)
      else (data, g)
  end.

Definition fillPositionTexture (g : Rng) (data : list R) : list R * Rng :=
  fillFrom fillPositionStep (List.length data) g data 0.

Definition fillVelocityTexture (g : Rng) (data : list R) : list R * Rng :=
  fillFrom fillVelocityStep (List.length data) g data 0.

(** Draws of [Math.random] lie in [0, 1). *)
Definition unitDraws (d : nat -> R) : Prop := forall n, 0 <= d n < 1.

(** The [xyz] of agent [j] in a flat RGBA float array. *)
Definition agentVec (data : list R) (j : nat) : vec3 :=
  mkVec3 (nth (4 * j) data 0) (nth (4 * j + 1) data 0) (nth (4 * j + 2) data 0).

End Init.

(* ------------------------------------------------------------------ *)
(** ** Notions the properties are stated with *)

Module Props.

Import VelocityShader.

(** The neighbour texels the stride loop reads for the fragment at
    [selfPixel]: position and velocity of every iteration not skipped. *)
Definition sampledNeighbors (W H : Z) (texturePosition textureVelocity : Texture)
    (selfPixel : Q * Q) : list (vec3 * vec3) :=
  flat_map (fun i => if isSelf W H i selfPixel then []
                     else [(xyz (texture2D W H texturePosition (neighborUV W H i)),
                            xyz (texture2D W H textureVelocity (neighborUV W H i)))])
           iterations.

(** The neighbours at a distance [d] from [myPos] with [0 < d < radius]. *)
Definition within (myPos : vec3) (radius : R) (nbrs : list (vec3 * vec3))
  : list (vec3 * vec3) :=
  filter (fun n => Rgtb (length (myPos -v fst n)) 0
                   && Rltb (length (myPos -v fst n)) radius) nbrs.

Definition vsum (l : list vec3) : vec3 := fold_left add l zero.

(** Separation as the code weights it: each neighbour in range contributes
    [(myPos - neighborPos) / d^2]; the sum is averaged over their number and
    scaled by [separationWeight * min(count * N/K / 10, 3)]. *)
Definition separationForce (myPos : vec3) (radius weight ratio : R)
    (nbrs : list (vec3 * vec3)) : vec3 :=
  let close := within myPos radius nbrs in
  let count := INR (List.length close) in
  let total :=
    vsum (map (fun n => (myPos -v fst n)
                        /s (length (myPos -v fst n) * length (myPos -v fst n)))
              close) in
  match close with
  | [] => zero
  | _ => total /s count *s weight *s Rmin (count * ratio / 10) 3
  end.

(** Central-difference estimate, with step [h], of the divergence of a
    vector field. *)
Definition divergence (h : R) (F : vec3 -> vec3) (p : vec3) : R :=
  (vx (F (p +v mkVec3 h 0 0)) - vx (F (p -v mkVec3 h 0 0))) / (2 * h)
  + (vy (F (p +v mkVec3 0 h 0)) - vy (F (p -v mkVec3 0 h 0))) / (2 * h)
  + (vz (F (p +v mkVec3 0 0 h)) - vz (F (p -v mkVec3 0 0 h))) / (2 * h).

(** A generation in which every agent has the same position and velocity. *)
Definition uniformGeneration (pos vel : vec3) : Gpgpu.Generation :=
  Gpgpu.mkGeneration (fun _ _ => mkVec4 pos 1) (fun _ _ => mkVec4 vel 1).

End Props.

(* ------------------------------------------------------------------ *)
(** ** The frame loop of [main.ts] *)

Module Frames.

Import VelocityShader Gpgpu.

(** The uniforms [animate] hands to the shaders for the frame at clock time
    [now], the previous frame having run at [lastTime]:
    [delta = Math.min(now - lastTime, 0.05)] is set as [uDelta] of both
    shaders and [now] as [uTime]; the sliders' uniforms stay as they are. *)
Definition animateUniforms (u : Uniforms) (now lastTime : R) : Uniforms :=
  mkUniforms (clampDelta (now - lastTime)) now
             (uSeparationWeight u) (uAlignmentWeight u) (uCohesionWeight u)
             (uMaxSpeed u) (uPerceptionRadius u) (uBoundaryRadius u)
             (uSeparationRadius u) (uTurbulence u).

End Frames.

(* ------------------------------------------------------------------ *)
(** ** Instancing ([createBirdGeometry]) and the bird vertex shader *)

Module Bird.

(** The [reference] attribute of instance [i]:
    [x = (i % TEXTURE_WIDTH) / TEXTURE_WIDTH],
    [y = Math.floor(i / TEXTURE_WIDTH) / TEXTURE_HEIGHT], each moved to the
    centre of the pixel by [0.5 / TEXTURE_WIDTH], [0.5 / TEXTURE_HEIGHT]. *)
Definition reference (W H i : Z) : Q * Q :=
  let x := (inject_Z (i mod W) / inject_Z W)%Q in
  let y := (inject_Z (i / W) / inject_Z H)%Q in
  ((x + (1 # 2) / inject_Z W)%Q, (y + (1 # 2) / inject_Z H)%Q).

Definition cross (a b : vec3) : vec3 :=
  mkVec3 (vy a * vz b - vz a * vy b)
         (vz a * vx b - vx a * vz b)
         (vx a * vy b - vy a * vx b).

(** A [mat3], by columns. *)
Record mat3 : Type := mkMat3 { col0 : vec3; col1 : vec3; col2 : vec3 }.

(** [m * v] *)
Definition mulMV (m : mat3) (v : vec3) : vec3 :=
  col0 m *s vx v +v col1 m *s vy v +v col2 m *s vz v.

(** [mix] on [vec3] with a scalar weight. *)
Definition mix3 (a b : vec3) (t : R) : vec3 :=
  mkVec3 (mix (vx a) (vx b) t) (mix (vy a) (vy b) t) (mix (vz a) (vz b) t).

(** [vec3 forward = speed > 0.001 ? normalize(birdVel) : vec3(0.0, 0.0, 1.0);] *)
Definition forward (birdVel : vec3) : option vec3 :=
  let speed := length birdVel in
  if VelocityShader.Rgtb speed 0.001 then normalize birdVel
  else Some (mkVec3 0.0 0.0 1.0).

(** [up], with the near-parallel case handled. *)
Definition up (forward : vec3) : vec3 :=
  let up := mkVec3 0.0 1.0 0.0 in
  if VelocityShader.Rgtb (Rabs (dot forward up)) 0.999 then mkVec3 0.0 0.0 1.0
  else up.

(** [mat3 rotMat = mat3(right, forward, newUp)] *)
Definition rotMat (birdVel : vec3) : option mat3 :=
  forward <- forward birdVel;;
  let up := up forward in
  right <- normalize (cross forward up);;
  let newUp := cross right forward in
  Some (mkMat3 right forward newUp).

(** [float scale = 0.8 + 0.4 * smoothstep(0.0, 50.0, speed);] *)
Definition scale (birdVel : vec3) : R :=
  0.8 + 0.4 * smoothstep 0.0 50.0 (length birdVel).

(** The varyings of the vertex shader; [gl_Position] is [transformed] under
    the camera matrices three.js supplies. *)
Record Varyings : Type := mkVaryings {
  vNormal : vec3;
  vWorldPosition : vec3;
  vColor : vec3
}.

Section Vertex.

Variables W H : Z.
Variables uTexturePosition uTextureVelocity : Texture.
Variable reference : Q * Q.       (* attribute vec2 reference *)
Variables position normal : vec3. (* the vertex of the cone and its normal *)

(** [main] of the bird vertex shader. *)
Definition main : option Varyings :=
  let birdPos := xyz (texture2D W H uTexturePosition reference) in
  let birdVel := xyz (texture2D W H uTextureVelocity reference) in
  let speed := length birdVel in
  rotMat <- rotMat birdVel;;
  let scale := scale birdVel in
  let transformed := mulMV rotMat (position *s scale) +v birdPos in
  vNormal <- normalize (mulMV rotMat normal);;
  let hue := Q2R (fst reference) * 0.3 + Q2R (snd reference) * 0.7 in
  let speedFactor := smoothstep 0.0 80.0 speed in
  let colorA := mkVec3 1.0 0.45 0.15 in
  let colorB := mkVec3 0.7 0.2 0.8 in
  let colorC := mkVec3 0.2 0.5 1.0 in
  let vColor := mix3 (mix3 colorA colorB hue) colorC (speedFactor * 0.5) in
  Some (mkVaryings vNormal transformed vColor).

End Vertex.

End Bird.

(* ------------------------------------------------------------------ *)
(** ** Further notions the properties are stated with *)

Module Props2.

Import Init.

(** The point with radius [r], polar angle [phi] and azimuth [theta], as both
    initialisers compute it. *)
Definition spherical (r phi theta : R) : vec3 :=
  mkVec3 (r * sin phi * cos theta) (r * sin phi * sin theta) (r * cos phi).

(** The position [fillPositionTexture] computes from the draws number [t],
    [t + 1] and [t + 2] of the stream [d]. *)
Definition drawnPosition (d : nat -> R) (t : nat) : vec3 :=
  spherical (d t * (params_boundaryRadius * 0.6))
            (acos (2 * d (S (S t)) - 1)) (d (S t) * PI * 2).

(** The velocity [fillVelocityTexture] computes from the draws number [t]
    and [t + 1] of the stream [d]. *)
Definition drawnVelocity (d : nat -> R) (t : nat) : vec3 :=
  spherical (params_maxSpeed * 0.3) (acos (2 * d (S t) - 1)) (d t * PI * 2).

(** The columns of a matrix have length 1 and are orthogonal to each other. *)
Definition orthonormal (m : Bird.mat3) : Prop :=
  dot (Bird.col0 m) (Bird.col0 m) = 1
  /\ dot (Bird.col1 m) (Bird.col1 m) = 1
  /\ dot (Bird.col2 m) (Bird.col2 m) = 1
  /\ dot (Bird.col0 m) (Bird.col1 m) = 0
  /\ dot (Bird.col0 m) (Bird.col2 m) = 0
  /\ dot (Bird.col1 m) (Bird.col2 m) = 0.

End Props2.

(* ================================================================== *)
(** * Properties *)

Import VelocityShader Gpgpu Props.

(* ------------------------------------------------------------------ *)
(** ** Texture addressing *)

Lemma Qfloor_half (z : Z) : Qfloor (inject_Z z + (1 # 2)) = z.
Proof.
  unfold Qfloor, Qplus, inject_Z; simpl.
  symmetry; apply Z.div_unique with (r := 1%Z); lia.
Qed.

(** The texel under a texel centre divided by the size is that texel, up to
    wrapping. *)
Lemma texel_centre (size z : Z) :
  (0 < size)%Z ->
  texel size ((inject_Z z + (1 # 2)) / inject_Z size) = (z mod size)%Z.
Proof.
  intros Hs. unfold texel.
  assert (Hq : ((inject_Z z + (1 # 2)) / inject_Z size * inject_Z size
                == inject_Z z + (1 # 2))%Q).
  { field. intros E. unfold Qeq in E; simpl in E. lia. }
  rewrite Hq, Qfloor_half. reflexivity.
Qed.

(** A fragment reads its own texel through [uv]. *)
Lemma texture2D_self (W H x y : Z) (tex : Texture) :
  (0 <= x < W)%Z -> (0 <= y < H)%Z ->
  texture2D W H tex (VelocityShader.uv W H (fragCoord x y)) = tex x y.
Proof.
  intros Hx Hy. unfold texture2D, VelocityShader.uv, fragCoord; simpl.
  rewrite !texel_centre by lia.
  rewrite !Z.mod_small by lia. reflexivity.
Qed.

(** The texel read for iteration [i] of the stride loop. *)
Lemma texture2D_neighbor (W H i : Z) (tex : Texture) :
  (0 < W)%Z -> (0 < H)%Z ->
  texture2D W H tex (neighborUV W H i)
  = tex (px W H i) (py W H i mod H)%Z.
Proof.
  intros HW HH. unfold texture2D, neighborUV; simpl.
  rewrite !texel_centre by lia.
  unfold px. rewrite Z.mod_mod by lia. reflexivity.
Qed.

(* ------------------------------------------------------------------ *)
(** ** The stride pattern *)

(** An integer texel index is never within half a texel of a texel centre:
    the "Skip self" test compares [px], [py] with [gl_FragCoord], and so
    never holds. *)
Lemma isSelf_fragCoord (W H i x y : Z) :
  isSelf W H i (fragCoord x y) = false.
Proof.
  unfold isSelf, fragCoord, Qltb; simpl.
  destruct (Qlt_le_dec _ _) as [Hlt | Hle]; [exfalso | reflexivity].
  unfold Qlt in Hlt; simpl in Hlt. lia.
Qed.

Lemma sampledIds_fragCoord (W H x y : Z) :
  (0 < W)%Z ->
  sampledIds W H (fragCoord x y) = map (idx W H) iterations.
Proof.
  intros HW. unfold sampledIds.
  induction iterations as [| i l IH]; simpl; [reflexivity |].
  rewrite isSelf_fragCoord, IH; simpl. f_equal.
  unfold py, px. rewrite Z.mul_comm. symmetry. apply Z.div_mod. lia.
Qed.

Lemma stride_65536 (W H : Z) : (W * H = 65536)%Z -> stride W H = 218%Z.
Proof. intros E. unfold stride, TOTAL_PARTICLES. rewrite E. reflexivity. Qed.

Lemma iterations_range (i : Z) : In i iterations <-> (0 <= i < 300)%Z.
Proof.
  unfold iterations. rewrite in_map_iff. split.
  - intros [n [<- Hn]]. apply in_seq in Hn.
    change (Z.to_nat MAX_SAMPLES) with 300%nat in Hn. lia.
  - intros Hi. exists (Z.to_nat i). split; [lia |].
    apply in_seq. change (Z.to_nat MAX_SAMPLES) with 300%nat. lia.
Qed.

Lemma iterations_NoDup : NoDup iterations.
Proof.
  unfold iterations. apply Injective_map_NoDup.
  - intros a b E. lia.
  - apply seq_NoDup.
Qed.

(** The ids of [sampledIds] are the texels the stride loop reads. *)
Lemma sampledNeighbors_ids (W H : Z) (tp tv : Texture) (frag : Q * Q) :
  (0 < W)%Z -> (0 < H)%Z ->
  sampledNeighbors W H tp tv frag
  = map (fun id => (xyz (tp (id mod W) ((id / W) mod H))%Z,
                    xyz (tv (id mod W) ((id / W) mod H))%Z))
        (sampledIds W H frag).
Proof.
  intros HW HH. unfold sampledNeighbors, sampledIds.
  induction iterations as [| i l IH]; simpl; [reflexivity |].
  destruct (isSelf W H i frag); simpl; [exact IH |].
  rewrite IH, !texture2D_neighbor by assumption.
  assert (Hpx : (0 <= px W H i < W)%Z) by (apply Z.mod_pos_bound; lia).
  assert (Em : ((py W H i * W + px W H i) mod W = px W H i)%Z).
  { rewrite Z.add_comm, Z.mod_add by lia. now apply Z.mod_small. }
  assert (Ed : ((py W H i * W + px W H i) / W = py W H i)%Z).
  { rewrite Z.add_comm, Z.div_add by lia. rewrite Z.div_small by lia. lia. }
  now rewrite Em, Ed.
Qed.

(** C2 (refuted by the code): with [N = 65536] on a 256 x 256 grid and
    [K = 300] the stride is [S = 218] and the loop of agent 0 reads the 300
    pairwise distinct ids [0, S, 2S, ..., 299 S], whatever the textures and
    the time are; but agent 0's own id is one of them: the "Skip self" test
    compares the texel index with the texel centre and never holds. *)
Theorem sampler_reads_self_at_id0 :
  let ids := sampledIds 256 256 (fragCoord 0 0) in
  stride 256 256 = 218%Z
  /\ ids = map (fun i => i * 218)%Z iterations
  /\ List.length ids = 300%nat
  /\ NoDup ids
  /\ isSelf 256 256 0 (fragCoord 0 0) = false
  /\ In (idOfTexel 256 0 0) ids.
Proof.
  intros ids.
  assert (Hids : ids = map (fun i => i * 218)%Z iterations).
  { unfold ids. rewrite sampledIds_fragCoord by lia.
    apply map_ext. intros i. unfold idx. now rewrite (stride_65536 256 256). }
  split; [now apply stride_65536 |].
  split; [exact Hids |]. rewrite Hids.
  split; [now rewrite length_map |].
  split; [| split].
  - apply Injective_map_NoDup; [| apply iterations_NoDup].
    intros a b E. lia.
  - apply isSelf_fragCoord.
  - left. reflexivity.
Qed.

(* ------------------------------------------------------------------ *)
(** ** Vector facts *)

Lemma vec3_eq (a b : vec3) :
  vx a = vx b -> vy a = vy b -> vz a = vz b -> a = b.
Proof. destruct a, b; simpl; intros; subst; reflexivity. Qed.

Ltac vec_eq := apply vec3_eq; simpl; try lra.

Lemma add_zero_r (a : vec3) : a +v zero = a.
Proof. vec_eq. Qed.

Lemma add_zero_l (a : vec3) : zero +v a = a.
Proof. vec_eq. Qed.

Lemma add_assoc (a b c : vec3) : a +v b +v c = a +v (b +v c).
Proof. vec_eq. Qed.

Lemma scale_zero_r (a : vec3) : a *s 0 = zero.
Proof. vec_eq. Qed.

Lemma dot_nonneg (v : vec3) : 0 <= dot v v.
Proof. unfold dot. nra. Qed.

Lemma length_nonneg (v : vec3) : 0 <= length v.
Proof. apply sqrt_pos. Qed.

Lemma length_sqr (v : vec3) : length v * length v = dot v v.
Proof. apply sqrt_sqrt, dot_nonneg. Qed.

Lemma length_zero_iff (v : vec3) : length v = 0 <-> v = zero.
Proof.
  split.
  - intros E. apply sqrt_eq_0 in E; [| apply dot_nonneg].
    unfold dot in E. vec_eq; nra.
  - intros ->. unfold length, dot; simpl.
    replace (0 * 0 + 0 * 0 + 0 * 0) with 0 by ring. apply sqrt_0.
Qed.

Lemma length_zero : length zero = 0.
Proof. now apply length_zero_iff. Qed.

Lemma normalize_defined (v : vec3) :
  length v <> 0 -> normalize v = Some (v /s length v).
Proof.
  intros Hv. unfold normalize. destruct (Req_dec_T _ _); [contradiction | reflexivity].
Qed.

Lemma normalize_undefined (v : vec3) : v = zero -> normalize v = None.
Proof.
  intros ->. unfold normalize. rewrite length_zero.
  destruct (Req_dec_T 0 0); [reflexivity | contradiction].
Qed.

Lemma normalize_some_inv (v n : vec3) :
  normalize v = Some n -> length v <> 0 /\ n = v /s length v.
Proof.
  unfold normalize. destruct (Req_dec_T _ _); [discriminate |].
  intros E; inversion E; subst; split; [assumption | reflexivity].
Qed.

Lemma length_unit (v : vec3) : length v <> 0 -> length (v /s length v) = 1.
Proof.
  intros Hv. unfold length at 1.
  replace (dot (v /s length v) (v /s length v))
    with (dot v v / (length v * length v)).
  - rewrite length_sqr. pose proof (length_sqr v) as Hs.
    assert (dot v v <> 0) by (rewrite <- Hs; nra).
    replace (dot v v / dot v v) with 1 by (field; assumption).
    apply sqrt_1.
  - unfold dot, divs; simpl. field. assumption.
Qed.

Lemma length_scale_unit (n : vec3) (k : R) :
  length n = 1 -> 0 <= k -> length (n *s k) = k.
Proof.
  intros Hn Hk. unfold length.
  replace (dot (n *s k) (n *s k)) with (k * k * dot n n)
    by (unfold dot, scale; simpl; ring).
  rewrite <- length_sqr, Hn.
  replace (k * k * (1 * 1)) with (k * k) by ring.
  now apply sqrt_square.
Qed.

(** Comparisons as the shader's conditions use them. *)
Lemma Rltb_true (a b : R) : Rltb a b = true <-> a < b.
Proof. unfold Rltb. destruct (Rlt_dec a b); split; intros; try lra; easy. Qed.

Lemma Rltb_false (a b : R) : Rltb a b = false <-> b <= a.
Proof. unfold Rltb. destruct (Rlt_dec a b); split; intros; try lra; easy. Qed.

Lemma Rgtb_true (a b : R) : Rgtb a b = true <-> b < a.
Proof. apply Rltb_true. Qed.

Lemma Rgtb_false (a b : R) : Rgtb a b = false <-> a <= b.
Proof. apply Rltb_false. Qed.

(* ------------------------------------------------------------------ *)
(** ** Speed clamp *)

(** What [clampSpeed] returns, by the three cases of its two tests. *)
Lemma clampSpeed_cases (u : Uniforms) (v : vec3) :
  0 < uMaxSpeed u ->
  exists v', clampSpeed u v = Some v'
    /\ ((uMaxSpeed u < length v /\ length v' = uMaxSpeed u)
        \/ (length v <= uMaxSpeed u /\ length v < uMaxSpeed u * 0.2
            /\ 0.001 < length v /\ length v' = uMaxSpeed u * 0.2)
        \/ (length v <= uMaxSpeed u
            /\ (uMaxSpeed u * 0.2 <= length v \/ length v <= 0.001)
            /\ v' = v)).
Proof.
  intros HM. unfold clampSpeed.
  destruct (Rgtb (length v) (uMaxSpeed u)) eqn:Hmax.
  - apply Rgtb_true in Hmax.
    rewrite normalize_defined by lra. simpl.
    assert (Hlo : Rltb (length v) (uMaxSpeed u * 0.2) = false)
      by (apply Rltb_false; lra).
    rewrite Hlo; simpl. eexists; split; [reflexivity |].
    left. split; [assumption |].
    apply length_scale_unit; [apply length_unit |]; lra.
  - apply Rgtb_false in Hmax. simpl.
    destruct (Rltb (length v) (uMaxSpeed u * 0.2)) eqn:Hlo; simpl.
    + apply Rltb_true in Hlo.
      destruct (Rgtb (length v) 0.001) eqn:Hmov; simpl.
      * apply Rgtb_true in Hmov.
        rewrite normalize_defined by lra. simpl.
        eexists; split; [reflexivity |].
        right; left. repeat split; try assumption.
        apply length_scale_unit; [apply length_unit |]; lra.
      * apply Rgtb_false in Hmov.
        eexists; split; [reflexivity |].
        right; right. repeat split; auto.
    + apply Rltb_false in Hlo.
      eexists; split; [reflexivity |].
      right; right. repeat split; auto.
Qed.

(* ------------------------------------------------------------------ *)
(** ** The stride loop and the separation force *)

Lemma vsum_from (l : list vec3) (a : vec3) : fold_left add l a = a +v vsum l.
Proof.
  unfold vsum. revert a.
  induction l as [| b l IH]; intros a; simpl.
  - now rewrite add_zero_r.
  - rewrite IH, (IH (zero +v b)), add_zero_l. now rewrite add_assoc.
Qed.

Lemma vsum_cons (b : vec3) (l : list vec3) : vsum (b :: l) = b +v vsum l.
Proof. unfold vsum at 1; simpl. now rewrite vsum_from, add_zero_l. Qed.

Section Loop.

Variables W H : Z.
Variables tp tv : Texture.
Variable u : Uniforms.
Variable frag : Q * Q.
Variable myPos : vec3.

Let nb (i : Z) : vec3 * vec3 :=
  (xyz (texture2D W H tp (neighborUV W H i)),
   xyz (texture2D W H tv (neighborUV W H i))).

Let read (i : Z) : list (vec3 * vec3) :=
  if isSelf W H i frag then [] else [nb i].

Let weigh (n : vec3 * vec3) : vec3 :=
  (myPos -v fst n) /s (length (myPos -v fst n) * length (myPos -v fst n)).

(** The separation update is always defined: its [normalize] is behind
    [dist > 0]. *)
Lemma addSeparation_cases (diff : vec3) (acc : Accum) :
  (Rgtb (length diff) 0 && Rltb (length diff) (uSeparationRadius u) = true
   /\ addSeparation u diff (length diff) acc
      = Some (mkAccum (separation acc +v diff /s (length diff * length diff))
                      (alignment acc) (cohesion acc)
                      (separationCount acc + 1) (alignmentCount acc)
                      (cohesionCount acc)))
  \/ (Rgtb (length diff) 0 && Rltb (length diff) (uSeparationRadius u) = false
      /\ addSeparation u diff (length diff) acc = Some acc).
Proof.
  unfold addSeparation.
  replace 0.0 with 0 by lra. replace 1.0 with 1 by lra.
  destruct (Rgtb (length diff) 0 && Rltb (length diff) (uSeparationRadius u))
    eqn:G; [left | right; auto].
  split; [reflexivity |].
  apply andb_prop in G. destruct G as [G0 _]. apply Rgtb_true in G0.
  rewrite normalize_defined by lra. simpl. do 2 f_equal.
  vec_eq; field; lra.
Qed.

Lemma addAlignCohesion_separation (np nv : vec3) (d : R) (acc : Accum) :
  separation (addAlignCohesion u np nv d acc) = separation acc
  /\ separationCount (addAlignCohesion u np nv d acc) = separationCount acc.
Proof. unfold addAlignCohesion. destruct (_ && _); split; reflexivity. Qed.

(** One iteration, as seen by the separation accumulator. *)
Lemma loopBody_separation (acc : Accum) (i : Z) :
  exists acc',
    loopBody W H tp tv u frag myPos acc i = Some acc'
    /\ separation acc'
       = separation acc
         +v vsum (map weigh (within myPos (uSeparationRadius u) (read i)))
    /\ separationCount acc'
       = separationCount acc
         + INR (List.length (within myPos (uSeparationRadius u) (read i))).
Proof.
  unfold loopBody, read. destruct (isSelf W H i frag).
  - exists acc. split; [reflexivity |]. simpl.
    split; [now rewrite add_zero_r | lra].
  - set (np := xyz (texture2D W H tp (neighborUV W H i))).
    set (nv := xyz (texture2D W H tv (neighborUV W H i))).
    unfold within, nb. fold np nv. cbn [filter fst].
    destruct (addSeparation_cases (myPos -v np) acc) as [[G E] | [G E]];
      rewrite E, G; cbn [bind]; eexists; (split; [reflexivity |]);
      destruct (addAlignCohesion_separation np nv (length (myPos -v np)))
        with (acc := acc) as [Hs Hc].
    + destruct (addAlignCohesion_separation np nv (length (myPos -v np))
                  (mkAccum (separation acc
                            +v (myPos -v np)
                               /s (length (myPos -v np) * length (myPos -v np)))
                           (alignment acc) (cohesion acc)
                           (separationCount acc + 1) (alignmentCount acc)
                           (cohesionCount acc))) as [Hs' Hc'].
      rewrite Hs', Hc'. cbn [separation separationCount map List.length].
      rewrite vsum_cons. unfold weigh; cbn [fst].
      split; [now rewrite add_zero_r | simpl; lra].
    + rewrite Hs, Hc. cbn [map List.length]. simpl INR.
      split; [now rewrite add_zero_r | lra].
Qed.

Lemma vsum_app (l1 l2 : list vec3) : vsum (l1 ++ l2) = vsum l1 +v vsum l2.
Proof.
  induction l1 as [| a l1 IH]; simpl.
  - change (vsum []) with zero. now rewrite add_zero_l.
  - now rewrite !vsum_cons, IH, add_assoc.
Qed.

(** State of the separation accumulator after running the loop over the
    counter values [l]. *)
Lemma forEach_separation (l : list Z) (acc : Accum) :
  exists acc',
    forEach (loopBody W H tp tv u frag myPos) l acc = Some acc'
    /\ separation acc'
       = separation acc
         +v vsum (map weigh (within myPos (uSeparationRadius u) (flat_map read l)))
    /\ separationCount acc'
       = separationCount acc
         + INR (List.length (within myPos (uSeparationRadius u) (flat_map read l))).
Proof.
  revert acc. induction l as [| i l IH]; intros acc.
  - exists acc. simpl. split; [reflexivity |].
    split; [now rewrite add_zero_r | lra].
  - cbn [forEach flat_map].
    destruct (loopBody_separation acc i) as [acc1 [E1 [Hs1 Hc1]]].
    rewrite E1. cbn [bind].
    destruct (IH acc1) as [acc' [E' [Hs Hc]]].
    exists acc'. split; [exact E' |].
    unfold within in *. rewrite filter_app, map_app, vsum_app, length_app, plus_INR.
    rewrite Hs, Hc, Hs1, Hc1. split; [now rewrite add_assoc | lra].
Qed.

(** The stride loop is defined on every input, and the separation term the
    shader then adds to [accel] is [separationForce] of the neighbours read. *)
Lemma sampleLoop_separation (accel : vec3) :
  exists acc,
    sampleLoop W H tp tv u frag myPos = Some acc
    /\ applySeparation W H u acc accel
       = accel +v separationForce myPos (uSeparationRadius u)
                    (uSeparationWeight u) (sampleRatio W H)
                    (sampledNeighbors W H tp tv frag).
Proof.
  destruct (forEach_separation iterations accum0) as [acc [E [Hs Hc]]].
  exists acc. split; [exact E |].
  change (sampledNeighbors W H tp tv frag) with (flat_map read iterations).
  unfold applySeparation, separationForce. cbv zeta.
  change (fun n : vec3 * vec3 =>
            (myPos -v fst n)
            /s (length (myPos -v fst n) * length (myPos -v fst n)))
    with weigh.
  rewrite Hs, Hc. cbn [accum0 separation separationCount].
  rewrite add_zero_l. replace 0.0 with 0 by lra.
  destruct (within myPos (uSeparationRadius u) (flat_map read iterations))
    as [| n close].
  - cbn [List.length INR].
    assert (G : Rgtb (0 + 0) 0 = false) by (apply Rgtb_false; lra).
    rewrite G. now rewrite add_zero_r.
  - assert (Hpos : 0 < INR (List.length (n :: close))).
    { apply lt_0_INR. simpl. lia. }
    assert (G : Rgtb (0 + INR (List.length (n :: close))) 0 = true)
      by (apply Rgtb_true; lra).
    rewrite G.
    replace (0 + INR (List.length (n :: close)))
      with (INR (List.length (n :: close))) by lra.
    replace 10.0 with 10 by lra. replace 3.0 with 3 by lra.
    reflexivity.
Qed.

Lemma sampleLoop_defined :
  exists acc, sampleLoop W H tp tv u frag myPos = Some acc.
Proof.
  destruct (sampleLoop_separation zero) as [acc [E _]]. now exists acc.
Qed.

End Loop.

Lemma length_x (a : R) : 0 <= a -> length (mkVec3 a 0 0) = a.
Proof.
  intros Ha. unfold length, dot; simpl.
  replace (a * a + 0 * 0 + 0 * 0) with (a * a) by ring.
  now apply sqrt_square.
Qed.

(** C3 (as stated, refuted): on a 256 x 256 grid with the initial
    parameters, agent 0 at [(2,0,0)] reads in iteration 1 a neighbour at the
    origin, at distance [d = 2 < separationRadius]; the separation
    accumulator does not grow by [(myPos - neighborPos) / d = (1,0,0)] but
    by [(1/2,0,0)]. *)
Lemma separation_step_not_over_d :
  let tp : Texture :=
    fun x y => if ((x =? 0) && (y =? 0))%Z then mkVec4 (mkVec3 2 0 0) 1
               else mkVec4 zero 1 in
  let u := initialUniforms 0.016 0 in
  let myPos := xyz (tp 0 0)%Z in
  let neighborPos := xyz (texture2D 256 256 tp (neighborUV 256 256 1)) in
  let d := length (myPos -v neighborPos) in
  0 < d < uSeparationRadius u
  /\ exists acc,
       loopBody 256 256 tp tp u (fragCoord 0 0) myPos accum0 1 = Some acc
       /\ separation acc = separation accum0 +v mkVec3 (1 / 2) 0 0
       /\ separation acc <> separation accum0 +v (myPos -v neighborPos) /s d.
Proof.
  intros tp u myPos neighborPos d.
  assert (Hn : neighborPos = zero).
  { unfold neighborPos. rewrite texture2D_neighbor by lia. reflexivity. }
  assert (Hdiff : myPos -v neighborPos = mkVec3 2 0 0).
  { rewrite Hn. unfold myPos; simpl. vec_eq. }
  assert (Hd : d = 2).
  { unfold d. rewrite Hdiff. apply length_x. lra. }
  split; [rewrite Hd; simpl; lra |].
  unfold loopBody. rewrite isSelf_fragCoord.
  fold neighborPos. fold myPos. rewrite Hdiff. fold d in Hd.
  assert (Hl : length (mkVec3 2 0 0) = 2) by (apply length_x; lra).
  destruct (addSeparation_cases u (mkVec3 2 0 0) accum0) as [[G E] | [G E]].
  - rewrite E. cbn [bind]. eexists. split; [reflexivity |].
    rewrite !(proj1 (addAlignCohesion_separation _ _ _ _ _)).
    cbn [separation accum0]. rewrite Hl, Hd. split.
    + vec_eq.
    + intros C. apply (f_equal vx) in C. simpl in C. lra.
  - exfalso. rewrite Hl in G.
    assert (G' : Rgtb 2 0 && Rltb 2 (uSeparationRadius u) = true).
    { apply andb_true_intro. split; [apply Rgtb_true; lra |].
      apply Rltb_true. simpl. lra. }
    congruence.
Qed.

(** C3 (amended): every neighbour read at distance [d] with
    [0 < d < separationRadius] adds [(myPos - neighborPos) / d^2] to the
    separation accumulator; after the loop the accumulator is divided by the
    number of such neighbours and scaled by
    [separationWeight * min(count * N/K / 10, 3)], and that vector is what
    the shader adds to the acceleration (nothing when there is no such
    neighbour). *)
Theorem separation_contribution (W H : Z) (cur : Generation) (u : Uniforms)
    (frag : Q * Q) (myPos accel : vec3) :
  sampleRatio W H = IZR (W * H) / 300
  /\ exists acc,
       sampleLoop W H (texturePosition cur) (textureVelocity cur) u frag myPos
       = Some acc
       /\ applySeparation W H u acc accel
          = accel +v separationForce myPos (uSeparationRadius u)
                       (uSeparationWeight u) (sampleRatio W H)
                       (sampledNeighbors W H (texturePosition cur)
                                         (textureVelocity cur) frag).
Proof.
  split; [reflexivity |]. apply sampleLoop_separation.
Qed.

(* ------------------------------------------------------------------ *)
(** ** The velocity kernel as a whole *)

(** The kernel of texel [(x, y)], with its own texel read out. *)
Lemma computeVelocity_unfold (W H : Z) (cur : Generation) (u : Uniforms)
    (x y : Z) :
  (0 <= x < W)%Z -> (0 <= y < H)%Z ->
  computeVelocity W H cur u x y
  = (accel <- acceleration W H (texturePosition cur) (textureVelocity cur) u
                (fragCoord x y) (xyz (texturePosition cur x y))
                (xyz (textureVelocity cur x y));;
     newVel <- clampSpeed u (xyz (textureVelocity cur x y) +v accel *s uDelta u);;
     Some (mkVec4 newVel 1.0)).
Proof.
  intros Hx Hy. unfold computeVelocity, VelocityShader.main.
  now rewrite !texture2D_self.
Qed.

Lemma computePosition_unfold (W H : Z) (cur : Generation)
    (nextVelocity : Texture) (delta : R) (x y : Z) :
  (0 <= x < W)%Z -> (0 <= y < H)%Z ->
  computePosition W H cur nextVelocity delta x y
  = mkVec4 (xyz (texturePosition cur x y) +v xyz (nextVelocity x y) *s delta)
           (vw (texturePosition cur x y)).
Proof.
  intros Hx Hy. unfold computePosition, PositionShader.main.
  change (PositionShader.uv W H (fragCoord x y))
    with (VelocityShader.uv W H (fragCoord x y)).
  now rewrite !texture2D_self.
Qed.

Lemma offset_zero_iff (p : vec3) :
  p +v splat 0.0001 = zero <-> p = splat (- 0.0001).
Proof.
  split; intros E.
  - apply (f_equal vx) in E as Ex. apply (f_equal vy) in E as Ey.
    apply (f_equal vz) in E as Ez. simpl in Ex, Ey, Ez. vec_eq.
  - subst p. vec_eq.
Qed.

Section Forces.

Variables W H : Z.
Variables tp tv : Texture.
Variable u : Uniforms.
Variable frag : Q * Q.
Variables myPos myVel : vec3.

(** The guarded [normalize]s of alignment and cohesion are defined. *)
Lemma applyAlignment_defined (acc : Accum) (accel : vec3) :
  exists steer, applyAlignment u myVel acc accel
                = Some (accel +v steer *s uAlignmentWeight u)
  \/ applyAlignment u myVel acc accel = Some accel.
Proof.
  unfold applyAlignment.
  destruct (Rgtb (alignmentCount acc) 0.0); [| exists zero; now right].
  destruct (Rgtb _ 0.001) eqn:G.
  - apply Rgtb_true in G. rewrite normalize_defined by lra.
    eexists; left; reflexivity.
  - eexists; left; reflexivity.
Qed.

Lemma applyCohesion_defined (acc : Accum) (accel : vec3) :
  exists steer, applyCohesion u myPos acc accel
                = Some (accel +v steer *s uCohesionWeight u)
  \/ applyCohesion u myPos acc accel = Some accel.
Proof.
  unfold applyCohesion.
  destruct (Rgtb (cohesionCount acc) 0.0); [| exists zero; now right].
  destruct (Rgtb _ 0.001) eqn:G.
  - apply Rgtb_true in G. rewrite normalize_defined by lra.
    eexists; left; reflexivity.
  - eexists; left; reflexivity.
Qed.

(** The unguarded [normalize(myPos + vec3(0.0001))] of the centroid pull. *)
Lemma applyCentroidPull_undefined (accel : vec3) :
  myPos = splat (- 0.0001) -> applyCentroidPull u myPos accel = None.
Proof.
  intros E. unfold applyCentroidPull.
  rewrite (normalize_undefined (myPos +v splat 0.0001)); [reflexivity |].
  now apply offset_zero_iff.
Qed.

Lemma applyCentroidPull_defined (accel : vec3) :
  myPos <> splat (- 0.0001) ->
  exists pull, applyCentroidPull u myPos accel
               = Some (accel -v pull *s uCohesionWeight u *s 0.15).
Proof.
  intros Hp. unfold applyCentroidPull.
  rewrite normalize_defined.
  - eexists; reflexivity.
  - intros E. apply length_zero_iff, offset_zero_iff in E. contradiction.
Qed.

(** The boundary branch, in closed form. *)
Lemma applyBoundary_inside (accel : vec3) :
  length myPos <= uBoundaryRadius u * 0.7 ->
  applyBoundary u myPos accel = Some accel.
Proof.
  intros Hr. unfold applyBoundary.
  apply Rgtb_false in Hr. now rewrite Hr.
Qed.

Lemma applyBoundary_outside (accel : vec3) :
  0 <= uBoundaryRadius u ->
  uBoundaryRadius u * 0.7 < length myPos ->
  applyBoundary u myPos accel
  = Some (accel -v (myPos /s length myPos)
                   *s (let t := clamp ((length myPos - uBoundaryRadius u * 0.7)
                                       / (uBoundaryRadius u * 0.3)) 0 1 in
                       t * t * t * uMaxSpeed u * 2)).
Proof.
  intros HR Hr. unfold applyBoundary.
  apply Rgtb_true in Hr as G. rewrite G.
  rewrite normalize_defined by lra. cbn [bind].
  replace 0.0 with 0 by lra. replace 1.0 with 1 by lra.
  replace 2.0 with 2 by lra. reflexivity.
Qed.

Lemma applyBoundary_defined (accel : vec3) :
  0 <= uBoundaryRadius u ->
  exists a, applyBoundary u myPos accel = Some a.
Proof.
  intros HR.
  destruct (Rle_or_lt (length myPos) (uBoundaryRadius u * 0.7)) as [Hin | Hout].
  - eexists. now apply applyBoundary_inside.
  - eexists. now apply applyBoundary_outside.
Qed.

(** The acceleration is undefined for an agent at
    [(-0.0001, -0.0001, -0.0001)] ... *)
Lemma acceleration_undefined :
  myPos = splat (- 0.0001) ->
  acceleration W H tp tv u frag myPos myVel = None.
Proof.
  intros E. unfold acceleration.
  destruct (sampleLoop W H tp tv u frag myPos) as [acc |]; [| reflexivity].
  cbn [bind].
  destruct (applyAlignment u myVel acc _) as [a1 |]; [| reflexivity].
  cbn [bind].
  destruct (applyCohesion u myPos acc a1) as [a2 |]; [| reflexivity].
  cbn [bind]. now rewrite applyCentroidPull_undefined.
Qed.

(** ... and defined for every other agent, the boundary radius not being
    negative. *)
Lemma acceleration_defined :
  0 <= uBoundaryRadius u -> myPos <> splat (- 0.0001) ->
  exists a, acceleration W H tp tv u frag myPos myVel = Some a.
Proof.
  intros HR Hp. unfold acceleration.
  destruct (sampleLoop_defined W H tp tv u frag myPos) as [acc ->].
  cbn [bind].
  destruct (applyAlignment_defined acc (applySeparation W H u acc zero))
    as [s1 [-> | ->]]; cbn [bind];
    match goal with
    | |- context [applyCohesion u myPos acc ?a] =>
        destruct (applyCohesion_defined acc a) as [s2 [-> | ->]]
    end; cbn [bind];
    match goal with
    | |- context [applyCentroidPull u myPos ?a] =>
        destruct (applyCentroidPull_defined a Hp) as [pull ->]
    end; cbn [bind]; now apply applyBoundary_defined.
Qed.

(** With the four weights at 0 only the boundary force is left. *)
Lemma acceleration_zero_force :
  uSeparationWeight u = 0 -> uAlignmentWeight u = 0 ->
  uCohesionWeight u = 0 -> uTurbulence u = 0 ->
  myPos <> splat (- 0.0001) ->
  acceleration W H tp tv u frag myPos myVel = applyBoundary u myPos zero.
Proof.
  intros Hs Ha Hc Ht Hp. unfold acceleration.
  destruct (sampleLoop_defined W H tp tv u frag myPos) as [acc ->].
  cbn [bind].
  assert (E1 : applySeparation W H u acc zero = zero).
  { unfold applySeparation. destruct (Rgtb _ _); [| reflexivity].
    rewrite Hs. vec_eq; ring. }
  rewrite E1.
  assert (E2 : applyAlignment u myVel acc zero = Some zero).
  { destruct (applyAlignment_defined acc zero) as [s [-> | ->]];
      [| reflexivity].
    rewrite Ha. f_equal. vec_eq; ring. }
  rewrite E2. cbn [bind].
  assert (E3 : applyCohesion u myPos acc zero = Some zero).
  { destruct (applyCohesion_defined acc zero) as [s [-> | ->]];
      [| reflexivity].
    rewrite Hc. f_equal. vec_eq; ring. }
  rewrite E3. cbn [bind].
  assert (E4 : applyTurbulence u myPos zero = zero).
  { unfold applyTurbulence. rewrite Ht. vec_eq; ring. }
  rewrite E4.
  destruct (applyCentroidPull_defined zero Hp) as [pull ->].
  cbn [bind]. rewrite Hc. f_equal. vec_eq; ring.
Qed.

End Forces.

Lemma length_scale_abs (n : vec3) (k : R) :
  length n = 1 -> length (n *s k) = Rabs k.
Proof.
  intros Hn. unfold length.
  replace (dot (n *s k) (n *s k)) with (Rsqr k * dot n n)
    by (unfold dot, scale, Rsqr; simpl; ring).
  rewrite <- length_sqr, Hn.
  replace (Rsqr k * (1 * 1)) with (Rsqr k) by ring.
  apply sqrt_Rsqr_abs.
Qed.

Lemma clamp_unit_range (x : R) : 0 <= clamp x 0 1 <= 1.
Proof.
  unfold clamp. split.
  - apply Rmin_glb; [apply Rmax_r | lra].
  - apply Rmin_r.
Qed.

Lemma clamp_above (x : R) : 1 <= x -> clamp x 0 1 = 1.
Proof.
  intros Hx. unfold clamp. rewrite Rmax_left by lra. apply Rmin_right. lra.
Qed.

Lemma clampSpeed_unchanged (u : Uniforms) (v : vec3) :
  length v <= uMaxSpeed u ->
  uMaxSpeed u * 0.2 <= length v \/ length v <= 0.001 ->
  clampSpeed u v = Some v.
Proof.
  intros Hmax Hmin. unfold clampSpeed.
  apply Rgtb_false in Hmax. rewrite Hmax. cbn [bind].
  destruct Hmin as [Hmin | Hmin].
  - apply Rltb_false in Hmin. now rewrite Hmin.
  - apply Rgtb_false in Hmin. rewrite Hmin. now rewrite andb_false_r.
Qed.

(* ------------------------------------------------------------------ *)
(** ** Soft boundary (C9) *)

(** C9: an agent at distance [r <= 0.7 * boundaryRadius] from the origin gets
    no containment force; beyond that the shader adds a force along
    [-myPos] (towards the origin) of magnitude [t^3 * 2 * maxSpeed] with
    [t = clamp((r - 0.7 * boundaryRadius) / (0.3 * boundaryRadius), 0, 1)],
    which is [2 * maxSpeed] from [r = boundaryRadius] on. *)
Theorem boundary_containment (u : Uniforms) (myPos accel : vec3) :
  0 < uBoundaryRadius u -> 0 <= uMaxSpeed u ->
  let r := length myPos in
  let t := clamp ((r - 0.7 * uBoundaryRadius u) / (0.3 * uBoundaryRadius u)) 0 1 in
  (r <= 0.7 * uBoundaryRadius u -> applyBoundary u myPos accel = Some accel)
  /\ (0.7 * uBoundaryRadius u < r ->
      exists force,
        applyBoundary u myPos accel = Some (accel +v force)
        /\ force = myPos *s (- (t * t * t * 2 * uMaxSpeed u) / r)
        /\ length force = t * t * t * 2 * uMaxSpeed u
        /\ (uBoundaryRadius u <= r -> length force = 2 * uMaxSpeed u)).
Proof.
  intros HR HM r t. split.
  - intros Hin. apply applyBoundary_inside. fold r. lra.
  - intros Hout.
    assert (Hr : r <> 0) by lra.
    exists ((myPos /s r) *s (- (t * t * t * 2 * uMaxSpeed u))).
    assert (Ht : 0 <= t <= 1) by apply clamp_unit_range.
    assert (Hstr : 0 <= t * t * t * 2 * uMaxSpeed u).
    { repeat apply Rmult_le_pos; lra. }
    assert (Hlen : length ((myPos /s r) *s (- (t * t * t * 2 * uMaxSpeed u)))
                   = t * t * t * 2 * uMaxSpeed u).
    { rewrite length_scale_abs by (apply length_unit; exact Hr).
      rewrite Rabs_Ropp. apply Rabs_pos_eq. exact Hstr. }
    split; [| split; [| split]].
    + rewrite applyBoundary_outside by (fold r; lra).
      fold r. cbv zeta.
      replace (uBoundaryRadius u * 0.7) with (0.7 * uBoundaryRadius u) by lra.
      replace (uBoundaryRadius u * 0.3) with (0.3 * uBoundaryRadius u) by lra.
      fold t. f_equal. vec_eq; ring.
    + vec_eq; field; exact Hr.
    + exact Hlen.
    + intros Hfar. rewrite Hlen.
      assert (Et : t = 1).
      { apply clamp_above.
        apply Rmult_le_reg_r with (0.3 * uBoundaryRadius u); [lra |].
        unfold Rdiv. rewrite Rmult_assoc, Rinv_l by lra. lra. }
      rewrite Et. ring.
Qed.

Lemma boundary_containment_witness :
  let u := initialUniforms 0.016 0 in
  let myPos := mkVec3 350 0 0 in
  let r := length myPos in
  let t := clamp ((r - 0.7 * uBoundaryRadius u) / (0.3 * uBoundaryRadius u)) 0 1 in
  (r <= 0.7 * uBoundaryRadius u -> applyBoundary u myPos zero = Some zero)
  /\ (0.7 * uBoundaryRadius u < r ->
      exists force,
        applyBoundary u myPos zero = Some (zero +v force)
        /\ force = myPos *s (- (t * t * t * 2 * uMaxSpeed u) / r)
        /\ length force = t * t * t * 2 * uMaxSpeed u
        /\ (uBoundaryRadius u <= r -> length force = 2 * uMaxSpeed u)).
Proof.
  apply (boundary_containment (initialUniforms 0.016 0) (mkVec3 350 0 0) zero);
    simpl; lra.
Defined.

(* ------------------------------------------------------------------ *)
(** ** Speed limits (C4, C5) *)

(** Where the summed acceleration [a] of an agent is defined, and
    [maxSpeed > 0], the kernel writes a velocity of magnitude at most
    [maxSpeed], and of magnitude exactly [maxSpeed] when the integrated
    velocity [myVel + a * dt] is faster than that. *)
Lemma speed_bound_where_defined (W H : Z) (cur : Generation) (u : Uniforms)
    (x y : Z) (a : vec3) :
  (0 <= x < W)%Z -> (0 <= y < H)%Z ->
  0 < uMaxSpeed u ->
  acceleration W H (texturePosition cur) (textureVelocity cur) u
    (fragCoord x y) (xyz (texturePosition cur x y))
    (xyz (textureVelocity cur x y)) = Some a ->
  exists out,
    computeVelocity W H cur u x y = Some out
    /\ length (xyz out) <= uMaxSpeed u
    /\ (uMaxSpeed u < length (xyz (textureVelocity cur x y) +v a *s uDelta u) ->
        length (xyz out) = uMaxSpeed u).
Proof.
  intros Hx Hy HM Ha.
  rewrite computeVelocity_unfold, Ha by assumption. cbn [bind].
  destruct (clampSpeed_cases u (xyz (textureVelocity cur x y) +v a *s uDelta u) HM)
    as [v' [-> Hcases]].
  cbn [bind]. eexists. split; [reflexivity |]. cbn [xyz].
  destruct Hcases as [[Hgt Hl] | [[Hle [Hlo [Hmov Hl]]] | [Hle [Hmid ->]]]];
    split; try lra.
Qed.

(** C4 (amended): with [maxSpeed > 0], whenever the integrated velocity
    [myVel + a * dt] of an agent is longer than 0.001 the kernel writes a
    velocity of magnitude at least [0.2 * maxSpeed].  The test is on the
    integrated velocity, not on the velocity before the update. *)
Theorem min_speed_when_integrated_moving (W H : Z) (cur : Generation)
    (u : Uniforms) (x y : Z) (a : vec3) :
  (0 <= x < W)%Z -> (0 <= y < H)%Z ->
  0 < uMaxSpeed u ->
  acceleration W H (texturePosition cur) (textureVelocity cur) u
    (fragCoord x y) (xyz (texturePosition cur x y))
    (xyz (textureVelocity cur x y)) = Some a ->
  0.001 < length (xyz (textureVelocity cur x y) +v a *s uDelta u) ->
  exists out,
    computeVelocity W H cur u x y = Some out
    /\ 0.2 * uMaxSpeed u <= length (xyz out).
Proof.
  intros Hx Hy HM Ha Hmov.
  rewrite computeVelocity_unfold, Ha by assumption. cbn [bind].
  destruct (clampSpeed_cases u (xyz (textureVelocity cur x y) +v a *s uDelta u) HM)
    as [v' [-> Hcases]].
  cbn [bind]. eexists. split; [reflexivity |]. cbn [xyz].
  destruct Hcases as [[Hgt Hl] | [[Hle [Hlo [Hmv Hl]]] | [Hle [Hmid ->]]]];
    lra.
Qed.

(* ------------------------------------------------------------------ *)
(** ** Two concrete generations, all weights at 0 *)

Lemma not_offset_origin_x (a : R) : a <> - 0.0001 -> mkVec3 a 0 0 <> splat (- 0.0001).
Proof. intros Ha E. apply (f_equal vx) in E. simpl in E. contradiction. Qed.

(** Every agent on the nominal boundary, at [(350,0,0)]: the acceleration is
    the boundary force alone, [2 * maxSpeed = 100] towards the origin. *)
Lemma acceleration_on_boundary (vel : vec3) (dt time : R) :
  let cur := uniformGeneration (mkVec3 350 0 0) vel in
  acceleration 512 512 (texturePosition cur) (textureVelocity cur)
    (zeroForceUniforms dt time) (fragCoord 0 0) (mkVec3 350 0 0) vel
  = Some (mkVec3 (- 100) 0 0).
Proof.
  intros cur.
  rewrite acceleration_zero_force;
    [| reflexivity | reflexivity | reflexivity | reflexivity
     | apply not_offset_origin_x; lra ].
  assert (Hl : length (mkVec3 350 0 0) = 350) by (apply length_x; lra).
  rewrite applyBoundary_outside; [| simpl; lra | rewrite Hl; simpl; lra ].
  rewrite Hl. cbv zeta. cbn [uBoundaryRadius uMaxSpeed zeroForceUniforms].
  replace ((350 - 350.0 * 0.7) / (350.0 * 0.3)) with 1 by lra.
  rewrite clamp_above by lra.
  f_equal. vec_eq.
Qed.

(** Every agent at the origin: no acceleration at all. *)
Lemma acceleration_at_origin (vel : vec3) (dt time : R) :
  let cur := uniformGeneration zero vel in
  acceleration 512 512 (texturePosition cur) (textureVelocity cur)
    (zeroForceUniforms dt time) (fragCoord 0 0) zero vel
  = Some zero.
Proof.
  intros cur.
  rewrite acceleration_zero_force;
    [| reflexivity | reflexivity | reflexivity | reflexivity
     | apply not_offset_origin_x; lra ].
  apply applyBoundary_inside. rewrite length_zero. simpl. lra.
Qed.

(** Next velocity of agent 0 on the boundary when it moves outwards at
    speed 20 and when it moves outwards at speed 5, for [dt = 0.05]. *)
Lemma next_velocity_on_boundary_20 :
  computeVelocity 512 512 (uniformGeneration (mkVec3 350 0 0) (mkVec3 20 0 0))
    (zeroForceUniforms 0.05 0) 0 0
  = Some (mkVec4 (mkVec3 15 0 0) 1.0).
Proof.
  rewrite computeVelocity_unfold by lia.
  cbn [uniformGeneration texturePosition textureVelocity xyz].
  rewrite (acceleration_on_boundary (mkVec3 20 0 0)). cbn [bind].
  replace (mkVec3 20 0 0 +v mkVec3 (- 100) 0 0 *s uDelta (zeroForceUniforms 0.05 0))
    with (mkVec3 15 0 0) by vec_eq.
  rewrite clampSpeed_unchanged; [reflexivity | |];
    rewrite length_x by lra; simpl; lra.
Qed.

Lemma next_velocity_on_boundary_5 :
  computeVelocity 512 512 (uniformGeneration (mkVec3 350 0 0) (mkVec3 5 0 0))
    (zeroForceUniforms 0.05 0) 0 0
  = Some (mkVec4 zero 1.0).
Proof.
  rewrite computeVelocity_unfold by lia.
  cbn [uniformGeneration texturePosition textureVelocity xyz].
  rewrite (acceleration_on_boundary (mkVec3 5 0 0)). cbn [bind].
  replace (mkVec3 5 0 0 +v mkVec3 (- 100) 0 0 *s uDelta (zeroForceUniforms 0.05 0))
    with zero by vec_eq.
  rewrite clampSpeed_unchanged; [reflexivity | |];
    rewrite length_zero; simpl; lra.
Qed.

(** Next velocity of agent 0 at the origin when it is faster than
    [maxSpeed = 50] and when it is slower than [0.2 * maxSpeed = 10]. *)
Lemma next_velocity_at_origin_100 :
  computeVelocity 512 512 (uniformGeneration zero (mkVec3 100 0 0))
    (zeroForceUniforms 0.05 0) 0 0
  = Some (mkVec4 (mkVec3 50 0 0) 1.0).
Proof.
  rewrite computeVelocity_unfold by lia.
  cbn [uniformGeneration texturePosition textureVelocity xyz].
  rewrite (acceleration_at_origin (mkVec3 100 0 0)). cbn [bind].
  replace (mkVec3 100 0 0 +v zero *s uDelta (zeroForceUniforms 0.05 0))
    with (mkVec3 100 0 0) by vec_eq.
  unfold clampSpeed. rewrite length_x by lra.
  cbn [uMaxSpeed zeroForceUniforms].
  assert (G1 : Rgtb 100 50.0 = true) by (apply Rgtb_true; lra).
  rewrite G1, normalize_defined by (rewrite length_x; lra).
  cbn [bind].
  assert (G2 : Rltb 100 (50.0 * 0.2) = false) by (apply Rltb_false; lra).
  rewrite G2. cbn [andb bind]. rewrite length_x by lra.
  do 2 f_equal. vec_eq.
Qed.

Lemma next_velocity_at_origin_5 :
  computeVelocity 512 512 (uniformGeneration zero (mkVec3 5 0 0))
    (zeroForceUniforms 0.05 0) 0 0
  = Some (mkVec4 (mkVec3 10 0 0) 1.0).
Proof.
  rewrite computeVelocity_unfold by lia.
  cbn [uniformGeneration texturePosition textureVelocity xyz].
  rewrite (acceleration_at_origin (mkVec3 5 0 0)). cbn [bind].
  replace (mkVec3 5 0 0 +v zero *s uDelta (zeroForceUniforms 0.05 0))
    with (mkVec3 5 0 0) by vec_eq.
  unfold clampSpeed. rewrite length_x by lra.
  cbn [uMaxSpeed zeroForceUniforms].
  assert (G1 : Rgtb 5 50.0 = false) by (apply Rgtb_false; lra).
  rewrite G1. cbn [bind].
  assert (G2 : Rltb 5 (50.0 * 0.2) = true) by (apply Rltb_true; lra).
  assert (G3 : Rgtb 5 0.001 = true) by (apply Rgtb_true; lra).
  rewrite G2, G3, normalize_defined by (rewrite length_x; lra).
  cbn [andb bind]. rewrite length_x by lra.
  do 2 f_equal. vec_eq.
Qed.

(* ------------------------------------------------------------------ *)
(** ** Witnesses and counterexamples for the speed limits *)

Lemma speed_bound_where_defined_witness :
  let cur := uniformGeneration (mkVec3 350 0 0) (mkVec3 20 0 0) in
  let u := zeroForceUniforms 0.05 0 in
  exists out,
    computeVelocity 512 512 cur u 0 0 = Some out
    /\ length (xyz out) <= uMaxSpeed u
    /\ (uMaxSpeed u
        < length (xyz (textureVelocity cur 0%Z 0%Z) +v mkVec3 (- 100) 0 0 *s uDelta u) ->
        length (xyz out) = uMaxSpeed u).
Proof.
  apply (speed_bound_where_defined 512 512
           (uniformGeneration (mkVec3 350 0 0) (mkVec3 20 0 0))
           (zeroForceUniforms 0.05 0) 0 0 (mkVec3 (- 100) 0 0));
    [lia | lia | simpl; lra | apply acceleration_on_boundary].
Defined.

Lemma min_speed_when_integrated_moving_witness :
  let cur := uniformGeneration (mkVec3 350 0 0) (mkVec3 20 0 0) in
  let u := zeroForceUniforms 0.05 0 in
  exists out,
    computeVelocity 512 512 cur u 0 0 = Some out
    /\ 0.2 * uMaxSpeed u <= length (xyz out).
Proof.
  apply (min_speed_when_integrated_moving 512 512
           (uniformGeneration (mkVec3 350 0 0) (mkVec3 20 0 0))
           (zeroForceUniforms 0.05 0) 0 0 (mkVec3 (- 100) 0 0));
    [lia | lia | simpl; lra | apply acceleration_on_boundary |].
  cbn [uniformGeneration textureVelocity xyz].
  replace (mkVec3 20 0 0 +v mkVec3 (- 100) 0 0 *s uDelta (zeroForceUniforms 0.05 0))
    with (mkVec3 15 0 0) by vec_eq.
  rewrite length_x; lra.
Defined.

(** C4 (as stated, refuted): agent 0 moves at speed 5 before the update
    ([maxSpeed = 50], [dt = 0.05]); the boundary force stops it, and the
    kernel writes the zero velocity, far below [0.2 * maxSpeed = 10]. *)
Lemma moving_agent_stalls :
  let cur := uniformGeneration (mkVec3 350 0 0) (mkVec3 5 0 0) in
  let u := zeroForceUniforms 0.05 0 in
  0 < uMaxSpeed u
  /\ length (xyz (textureVelocity cur 0%Z 0%Z)) = 5
  /\ exists out,
       computeVelocity 512 512 cur u 0 0 = Some out
       /\ length (xyz out) = 0
       /\ 0.2 * uMaxSpeed u = 10.
Proof.
  cbv zeta. split; [simpl; lra |]. split.
  - cbn [uniformGeneration textureVelocity xyz]. apply length_x. lra.
  - eexists. split; [apply next_velocity_on_boundary_5 |].
    cbn [xyz]. split; [apply length_zero | simpl; lra].
Qed.

(* ------------------------------------------------------------------ *)
(** ** One tick: position update (C1) and drift under zero force (C6) *)




(** C6 (as stated, refuted): all four weights are 0, yet over one tick the
    velocity of agent 0 changes from [(20,0,0)] to [(15,0,0)] when it is on
    the boundary (boundary force), and at the origin from [(100,0,0)] to
    [(50,0,0)] (maximal speed) and from [(5,0,0)] to [(10,0,0)] (minimal
    speed). *)
Lemma zero_force_velocity_changes :
  let u := zeroForceUniforms 0.05 0 in
  uSeparationWeight u = 0 /\ uAlignmentWeight u = 0
  /\ uCohesionWeight u = 0 /\ uTurbulence u = 0
  /\ (let cur := uniformGeneration (mkVec3 350 0 0) (mkVec3 20 0 0) in
      exists nextVel,
        computeVelocity 512 512 cur u 0 0 = Some nextVel
        /\ xyz nextVel <> xyz (textureVelocity cur 0%Z 0%Z))
  /\ (let cur := uniformGeneration zero (mkVec3 100 0 0) in
      exists nextVel,
        computeVelocity 512 512 cur u 0 0 = Some nextVel
        /\ xyz nextVel <> xyz (textureVelocity cur 0%Z 0%Z))
  /\ (let cur := uniformGeneration zero (mkVec3 5 0 0) in
      exists nextVel,
        computeVelocity 512 512 cur u 0 0 = Some nextVel
        /\ xyz nextVel <> xyz (textureVelocity cur 0%Z 0%Z)).
Proof.
  cbv zeta. repeat (split; [reflexivity |]).
  split; [| split].
  - eexists. split; [apply next_velocity_on_boundary_20 |].
    cbn [uniformGeneration textureVelocity xyz].
    intros E. apply (f_equal vx) in E. simpl in E. lra.
  - eexists. split; [apply next_velocity_at_origin_100 |].
    cbn [uniformGeneration textureVelocity xyz].
    intros E. apply (f_equal vx) in E. simpl in E. lra.
  - eexists. split; [apply next_velocity_at_origin_5 |].
    cbn [uniformGeneration textureVelocity xyz].
    intros E. apply (f_equal vx) in E. simpl in E. lra.
Qed.

(** C6 (amended): with the four weights at 0, an agent not at
    [(-0.0001,-0.0001,-0.0001)], within [0.7 * boundaryRadius] of the origin
    and whose speed is at most [maxSpeed] and either at least
    [0.2 * maxSpeed] or at most 0.001, keeps its velocity over one tick, for
    every [dt], and its position advances by exactly [velocity * dt]. *)
Theorem zero_force_drift (W H : Z) (cur : Generation) (u : Uniforms)
    (x y : Z) :
  (0 <= x < W)%Z -> (0 <= y < H)%Z ->
  uSeparationWeight u = 0 -> uAlignmentWeight u = 0 ->
  uCohesionWeight u = 0 -> uTurbulence u = 0 ->
  xyz (texturePosition cur x y) <> splat (- 0.0001) ->
  length (xyz (texturePosition cur x y)) <= 0.7 * uBoundaryRadius u ->
  length (xyz (textureVelocity cur x y)) <= uMaxSpeed u ->
  0.2 * uMaxSpeed u <= length (xyz (textureVelocity cur x y))
  \/ length (xyz (textureVelocity cur x y)) <= 0.001 ->
  (exists nextVel,
     computeVelocity W H cur u x y = Some nextVel
     /\ xyz nextVel = xyz (textureVelocity cur x y))
  /\ (forall nextVelocity : Texture,
        computeVelocity W H cur u x y = Some (nextVelocity x y) ->
        xyz (computePosition W H cur nextVelocity (uDelta u) x y)
        = xyz (texturePosition cur x y)
          +v xyz (textureVelocity cur x y) *s uDelta u).
Proof.
  intros Hx Hy Hs Ha Hc Ht Hp Hin Hmax Hmin.
  assert (Ev : computeVelocity W H cur u x y
               = Some (mkVec4 (xyz (textureVelocity cur x y)) 1.0)).
  { rewrite computeVelocity_unfold by assumption.
    rewrite acceleration_zero_force by assumption.
    rewrite applyBoundary_inside by lra. cbn [bind].
    replace (xyz (textureVelocity cur x y) +v zero *s uDelta u)
      with (xyz (textureVelocity cur x y)) by (vec_eq; ring).
    rewrite clampSpeed_unchanged;
      [| assumption | destruct Hmin; [left | right]; lra].
    reflexivity. }
  split.
  - eexists. split; [exact Ev | reflexivity].
  - intros nextVelocity En. rewrite Ev in En. inversion En as [E].
    rewrite computePosition_unfold by assumption.
    cbn [xyz]. rewrite <- E. reflexivity.
Qed.

Lemma zero_force_drift_witness :
  let cur := uniformGeneration zero (mkVec3 20 0 0) in
  let u := zeroForceUniforms 0.05 0 in
  (exists nextVel,
     computeVelocity 512 512 cur u 0 0 = Some nextVel
     /\ xyz nextVel = xyz (textureVelocity cur 0%Z 0%Z))
  /\ (forall nextVelocity : Texture,
        computeVelocity 512 512 cur u 0 0 = Some (nextVelocity 0%Z 0%Z) ->
        xyz (computePosition 512 512 cur nextVelocity (uDelta u) 0 0)
        = xyz (texturePosition cur 0%Z 0%Z)
          +v xyz (textureVelocity cur 0%Z 0%Z) *s uDelta u).
Proof.
  apply (zero_force_drift 512 512 (uniformGeneration zero (mkVec3 20 0 0))
           (zeroForceUniforms 0.05 0) 0 0);
    try lia; try reflexivity;
    cbn [uniformGeneration texturePosition textureVelocity xyz].
  - apply not_offset_origin_x. lra.
  - rewrite length_zero. simpl. lra.
  - rewrite length_x by lra. simpl. lra.
  - left. rewrite length_x by lra. simpl. lra.
Defined.

(* ------------------------------------------------------------------ *)
(** ** Undefined velocity (C8) *)

(** C8 (refuted by the code): the [normalize] of the centroid pull is not
    guarded; for an agent at [(-0.0001,-0.0001,-0.0001)] its argument
    [myPos + vec3(0.0001)] is the zero vector, and the velocity the kernel
    writes is undefined, whatever the parameters, the time and the other
    agents are. *)
Theorem velocity_undefined_at_offset_origin (W H : Z) (cur : Generation)
    (u : Uniforms) (x y : Z) :
  (0 <= x < W)%Z -> (0 <= y < H)%Z ->
  xyz (texturePosition cur x y) = splat (- 0.0001) ->
  normalize (xyz (texturePosition cur x y) +v splat 0.0001) = None
  /\ computeVelocity W H cur u x y = None.
Proof.
  intros Hx Hy Hp. split.
  - apply normalize_undefined. now apply offset_zero_iff.
  - rewrite computeVelocity_unfold by assumption.
    now rewrite acceleration_undefined.
Qed.

Lemma velocity_undefined_at_offset_origin_witness :
  let cur := uniformGeneration (splat (- 0.0001)) (mkVec3 20 0 0) in
  normalize (xyz (texturePosition cur 0%Z 0%Z) +v splat 0.0001) = None
  /\ computeVelocity 512 512 cur (initialUniforms 0.016 0) 0 0 = None.
Proof.
  apply (velocity_undefined_at_offset_origin 512 512
           (uniformGeneration (splat (- 0.0001)) (mkVec3 20 0 0))
           (initialUniforms 0.016 0) 0 0); [lia | lia | reflexivity].
Defined.

(** Apart from that point the kernel is defined: with a boundary radius and
    a maximal speed that are not negative, every [normalize] it reaches has
    a nonzero argument and a velocity is written. *)
Lemma computeVelocity_defined (W H : Z) (cur : Generation) (u : Uniforms)
    (x y : Z) :
  (0 <= x < W)%Z -> (0 <= y < H)%Z ->
  0 <= uBoundaryRadius u -> 0 < uMaxSpeed u ->
  xyz (texturePosition cur x y) <> splat (- 0.0001) ->
  exists out, computeVelocity W H cur u x y = Some out.
Proof.
  intros Hx Hy HR HM Hp.
  rewrite computeVelocity_unfold by assumption.
  destruct (acceleration_defined W H (texturePosition cur) (textureVelocity cur)
              u (fragCoord x y) _ (xyz (textureVelocity cur x y)) HR Hp)
    as [a ->].
  cbn [bind].
  destruct (clampSpeed_cases u (xyz (textureVelocity cur x y) +v a *s uDelta u) HM)
    as [v' [-> _]].
  cbn [bind]. eexists. reflexivity.
Qed.

(** C5 (refuted by the code): with the initial parameters ([maxSpeed = 50])
    and every agent at [(-0.0001,-0.0001,-0.0001)], the kernel of agent 0
    writes no defined velocity, because of the unguarded [normalize] of the
    centroid pull; so there is no velocity of magnitude at most [maxSpeed]
    that it writes.  Wherever the acceleration is defined the bound holds
    ([speed_bound_where_defined]). *)
Theorem speed_bound_fails_at_offset_origin :
  let cur := uniformGeneration (splat (- 0.0001)) (mkVec3 20 0 0) in
  let u := initialUniforms 0.016 0 in
  0 < uMaxSpeed u
  /\ computeVelocity 512 512 cur u 0 0 = None
  /\ ~ (exists out, computeVelocity 512 512 cur u 0 0 = Some out
                    /\ length (xyz out) <= uMaxSpeed u).
Proof.
  cbv zeta.
  assert (E : computeVelocity 512 512
                (uniformGeneration (splat (- 0.0001)) (mkVec3 20 0 0))
                (initialUniforms 0.016 0) 0 0 = None).
  { rewrite computeVelocity_unfold by lia.
    cbn [uniformGeneration texturePosition textureVelocity xyz].
    now rewrite acceleration_undefined. }
  split; [simpl; lra |]. split; [exact E |].
  intros [out [Eo _]]. rewrite E in Eo. discriminate.
Qed.

(* ------------------------------------------------------------------ *)
(** ** Curl noise (C7) *)

Section CurlOfAnyField.

Variable noise : vec3 -> R.
Variable p : vec3.

(** The field on the grid of step [e] around [p]. *)
Let grid (i j k : R) : R :=
  noise (mkVec3 (vx p + i * e) (vy p + j * e) (vz p + k * e)).

Local Ltac on_grid q i j k :=
  replace (noise q) with (grid i j k)
    by (unfold grid; apply f_equal; apply vec3_eq; simpl; lra).

Local Ltac to_grid :=
  repeat match goal with
  | |- context [noise ?q] =>
      first [ on_grid q 1 1 0 | on_grid q 1 (-1) 0
            | on_grid q (-1) 1 0 | on_grid q (-1) (-1) 0
            | on_grid q 1 0 1 | on_grid q 1 0 (-1)
            | on_grid q (-1) 0 1 | on_grid q (-1) 0 (-1)
            | on_grid q 0 1 1 | on_grid q 0 1 (-1)
            | on_grid q 0 (-1) 1 | on_grid q 0 (-1) (-1) ]
  end.

(** The central differences of step [e] commute, so the divergence of their
    antisymmetric combination, estimated with the same differences, cancels
    term by term. *)
Lemma curlNoiseOf_divergence : divergence e (curlNoiseOf noise) p = 0.
Proof.
  unfold divergence, curlNoiseOf. cbn [vx vy vz].
  to_grid. unfold e. lra.
Qed.

End CurlOfAnyField.

(** C7: [curlNoise] combines the central differences of [noise3D], of step
    [e = 0.1], as [(dy - dz, dz - dx, dx - dy)], and the divergence of that
    field, estimated by central differences of the same step, is 0 at every
    point (reals in place of floats). *)
Theorem curl_divergence_free (p : vec3) :
  let dx := (noise3D (p +v mkVec3 e 0 0) - noise3D (p -v mkVec3 e 0 0)) / (2 * e) in
  let dy := (noise3D (p +v mkVec3 0 e 0) - noise3D (p -v mkVec3 0 e 0)) / (2 * e) in
  let dz := (noise3D (p +v mkVec3 0 0 e) - noise3D (p -v mkVec3 0 0 e)) / (2 * e) in
  curlNoise p = mkVec3 (dy - dz) (dz - dx) (dx - dy)
  /\ divergence e curlNoise p = 0.
Proof.
  cbv zeta. split.
  - unfold curlNoise, curlNoiseOf. replace 2.0 with 2 by lra. reflexivity.
  - apply curlNoiseOf_divergence.
Qed.

(* ------------------------------------------------------------------ *)
(** ** Initial textures (C10) *)

Import Init.

Lemma store_length (data : list R) (i : nat) (v : R) :
  List.length (store data i v) = List.length data.
Proof.
  revert i. induction data as [| h t IH]; intros [| i]; simpl; auto.
Qed.

Lemma nth_store_same (data : list R) (i : nat) (v : R) :
  (i < List.length data)%nat -> nth i (store data i v) 0 = v.
Proof.
  revert i. induction data as [| h t IH]; intros [| i]; simpl; intros Hi;
    try lia; auto. apply IH. lia.
Qed.

Lemma nth_store_other (data : list R) (i k : nat) (v : R) :
  i <> k -> nth k (store data i v) 0 = nth k data 0.
Proof.
  revert i k. induction data as [| h t IH]; intros [| i] [| k] Hik; simpl;
    try reflexivity; try lia. apply IH. lia.
Qed.

(** A vector given by radius, polar angle and azimuth has the radius as
    length. *)
Lemma length_spherical (r phi theta : R) :
  0 <= r ->
  length (mkVec3 (r * sin phi * cos theta) (r * sin phi * sin theta) (r * cos phi))
  = r.
Proof.
  intros Hr. unfold length, dot; simpl.
  pose proof (sin2_cos2 phi) as Hp. pose proof (sin2_cos2 theta) as Ht.
  unfold Rsqr in Hp, Ht.
  replace (r * sin phi * cos theta * (r * sin phi * cos theta)
           + r * sin phi * sin theta * (r * sin phi * sin theta)
           + r * cos phi * (r * cos phi))
    with (r * r * (sin phi * sin phi * (sin theta * sin theta + cos theta * cos theta)
                   + cos phi * cos phi)) by ring.
  rewrite Ht, Rmult_1_r, Hp, Rmult_1_r.
  now apply sqrt_square.
Qed.

Section Fill.

Variable step : Rng -> list R -> nat -> list R * Rng.
Variable Good : (nat -> R) -> Prop.
Variable Q : vec3 -> Prop.

Hypothesis step_length :
  forall g d i, List.length (fst (step g d i)) = List.length d.
Hypothesis step_other :
  forall g d i k, (k < i \/ i + 3 < k)%nat ->
                  nth k (fst (step g d i)) 0 = nth k d 0.
Hypothesis step_draws :
  forall g d i, draws (snd (step g d i)) = draws g.
Hypothesis step_here :
  forall g d j, Good (draws g) -> (4 * j + 3 < List.length d)%nat ->
                Q (agentVec (fst (step g d (4 * j))) j).

(** Loop invariant of [fillFrom], started at agent [k] with [n] iterations
    allowed: earlier agents are left alone, the next [n] agents are
    filled, and the generator still draws from the same stream. *)
Lemma fillFrom_invariant (n : nat) :
  forall (g : Rng) (d : list R) (k : nat),
    Good (draws g) ->
    List.length (fst (fillFrom step n g d (4 * k))) = List.length d
    /\ draws (snd (fillFrom step n g d (4 * k))) = draws g
    /\ forall j, (4 * j + 3 < List.length d)%nat ->
         ((j < k)%nat -> agentVec (fst (fillFrom step n g d (4 * k))) j
                         = agentVec d j)
         /\ ((k <= j < k + n)%nat ->
             Q (agentVec (fst (fillFrom step n g d (4 * k))) j)).
Proof.
  induction n as [| n IH]; intros g d k Hg.
  - simpl. repeat split; auto; lia.
  - cbn [fillFrom]. destruct (4 * k <? List.length d)%nat eqn:Hlt.
    + pose proof (step_length g d (4 * k)) as Hlen.
      pose proof (step_draws g d (4 * k)) as Hdr.
      pose proof (step_other g d (4 * k)) as Hoth.
      pose proof (step_here g d k Hg) as Hhere.
      destruct (step g d (4 * k)) as [d1 g1]. cbn [fst snd] in *.
      replace (4 * k + 4)%nat with (4 * S k)%nat by lia.
      assert (Hg1 : Good (draws g1)) by now rewrite Hdr.
      destruct (IH g1 d1 (S k) Hg1) as [Hl [Hd Hj]].
      split; [lia |]. split; [congruence |].
      intros j Hjin. rewrite <- Hlen in Hjin.
      destruct (Hj j Hjin) as [Hbefore Hfill]. split.
      * intros Hjk. rewrite Hbefore by lia.
        unfold agentVec. rewrite !Hoth by lia. reflexivity.
      * intros Hjk. destruct (Nat.eq_dec j k) as [-> | Hne].
        -- rewrite Hbefore by lia. apply Hhere. lia.
        -- apply Hfill. lia.
    + apply Nat.ltb_ge in Hlt. cbn [fst snd].
      repeat split; auto; lia.
Qed.

(** The iteration bound [n] is never what ends the loop once it covers the
    array: allowing more iterations changes nothing. *)
Lemma fillFrom_enough (n m : nat) :
  forall (g : Rng) (d : list R) (i : nat),
    (List.length d <= i + 4 * n)%nat ->
    fillFrom step (n + m) g d i = fillFrom step n g d i.
Proof.
  induction n as [| n IH]; intros g d i Hn.
  - destruct m as [| m]; [reflexivity |]. cbn [Nat.add fillFrom].
    assert (E : (i <? List.length d)%nat = false) by (apply Nat.ltb_ge; lia).
    now rewrite E.
  - cbn [Nat.add fillFrom]. destruct (i <? List.length d)%nat; [| reflexivity].
    pose proof (step_length g d i) as Hlen.
    destruct (step g d i) as [d1 g1]. cbn [fst] in Hlen.
    apply IH. lia.
Qed.

End Fill.

(** What one iteration of each initialiser stores. *)
Lemma fillPositionStep_eq (g : Rng) (data : list R) (i : nat) :
  fillPositionStep g data i
  = (let r := draws g (taken g) * (params_boundaryRadius * 0.6) in
     let theta := draws g (S (taken g)) * PI * 2 in
     let phi := acos (2 * draws g (S (S (taken g))) - 1) in
     store (store (store (store data (i + 0) (r * sin phi * cos theta))
                         (i + 1) (r * sin phi * sin theta))
                  (i + 2) (r * cos phi))
           (i + 3) 1.0,
     mkRng (draws g) (S (S (S (taken g))))).
Proof. reflexivity. Qed.

Lemma fillVelocityStep_eq (g : Rng) (data : list R) (i : nat) :
  fillVelocityStep g data i
  = (let initSpeed := params_maxSpeed * 0.3 in
     let theta := draws g (taken g) * PI * 2 in
     let phi := acos (2 * draws g (S (taken g)) - 1) in
     store (store (store (store data (i + 0) (initSpeed * sin phi * cos theta))
                         (i + 1) (initSpeed * sin phi * sin theta))
                  (i + 2) (initSpeed * cos phi))
           (i + 3) 1.0,
     mkRng (draws g) (S (S (taken g)))).
Proof. reflexivity. Qed.

Local Ltac store_facts :=
  cbv zeta; cbn [fst snd];
  repeat rewrite store_length;
  repeat (rewrite nth_store_other by lia);
  try (rewrite nth_store_same by (repeat rewrite store_length; lia)).

Lemma agentVec_stored (data : list R) (j : nat) (a b c w : R) :
  (4 * j + 3 < List.length data)%nat ->
  agentVec (store (store (store (store data (4 * j + 0) a) (4 * j + 1) b)
                         (4 * j + 2) c) (4 * j + 3) w) j
  = mkVec3 a b c.
Proof.
  intros Hj. unfold agentVec. f_equal.
  - replace (4 * j)%nat with (4 * j + 0)%nat at 1 by lia.
    rewrite !nth_store_other by lia. apply nth_store_same. lia.
  - rewrite !nth_store_other by lia. apply nth_store_same.
    rewrite store_length. lia.
  - rewrite !nth_store_other by lia. apply nth_store_same.
    rewrite !store_length. lia.
Qed.

Lemma nth_stored_other (data : list R) (i k : nat) (a b c w : R) :
  (k < i \/ i + 3 < k)%nat ->
  nth k (store (store (store (store data (i + 0) a) (i + 1) b) (i + 2) c)
               (i + 3) w) 0
  = nth k data 0.
Proof. intros Hk. now rewrite !nth_store_other by lia. Qed.

(** C10: after [fillPositionTexture] and [fillVelocityTexture] (reals in
    place of floats, [Math.random] drawing from [0, 1)), the velocity of
    every agent has magnitude exactly [0.3 * maxSpeed] and its position lies
    within [0.6 * boundaryRadius] of the origin. *)
Theorem initial_state (g : Rng) (dtPosition dtVelocity : list R) (j : nat) :
  unitDraws (draws g) ->
  (4 * j + 3 < List.length dtPosition)%nat ->
  (4 * j + 3 < List.length dtVelocity)%nat ->
  let '(positions, g') := fillPositionTexture g dtPosition in
  let '(velocities, _) := fillVelocityTexture g' dtVelocity in
  length (agentVec velocities j) = 0.3 * params_maxSpeed
  /\ length (agentVec positions j) <= 0.6 * params_boundaryRadius.
Proof.
  intros Hg HjP HjV.
  assert (HP := fillFrom_invariant fillPositionStep unitDraws
                  (fun v => length v <= 0.6 * params_boundaryRadius)).
  assert (HV := fillFrom_invariant fillVelocityStep (fun _ => True)
                  (fun v => length v = 0.3 * params_maxSpeed)).
  unfold fillPositionTexture, fillVelocityTexture.
  specialize (HP ltac:(intros; rewrite fillPositionStep_eq; store_facts; reflexivity)).
  specialize (HP ltac:(intros; rewrite fillPositionStep_eq; cbv zeta; cbn [fst];
                       now apply nth_stored_other)).
  specialize (HP ltac:(intros; rewrite fillPositionStep_eq; reflexivity)).
  specialize (HV ltac:(intros; rewrite fillVelocityStep_eq; store_facts; reflexivity)).
  specialize (HV ltac:(intros; rewrite fillVelocityStep_eq; cbv zeta; cbn [fst];
                       now apply nth_stored_other)).
  specialize (HV ltac:(intros; rewrite fillVelocityStep_eq; reflexivity)).
  assert (HPhere : forall g d j, unitDraws (draws g) ->
            (4 * j + 3 < List.length d)%nat ->
            length (agentVec (fst (fillPositionStep g d (4 * j))) j)
            <= 0.6 * params_boundaryRadius).
  { intros g0 d j0 Hg0 Hj0. rewrite fillPositionStep_eq. cbv zeta. cbn [fst].
    rewrite agentVec_stored by assumption.
    destruct (Hg0 (taken g0)) as [H0 H1].
    rewrite length_spherical; unfold params_boundaryRadius; nra. }
  assert (HVhere : forall g d j, True ->
            (4 * j + 3 < List.length d)%nat ->
            length (agentVec (fst (fillVelocityStep g d (4 * j))) j)
            = 0.3 * params_maxSpeed).
  { intros g0 d j0 _ Hj0. rewrite fillVelocityStep_eq. cbv zeta. cbn [fst].
    rewrite agentVec_stored by assumption.
    rewrite length_spherical; unfold params_maxSpeed; lra. }
  specialize (HP HPhere (List.length dtPosition) g dtPosition 0%nat Hg).
  destruct HP as [_ [_ HP]]. change (4 * 0)%nat with 0%nat in HP.
  destruct (fillFrom fillPositionStep (List.length dtPosition) g dtPosition 0)
    as [positions g'].
  specialize (HV HVhere (List.length dtVelocity) g' dtVelocity 0%nat I).
  destruct HV as [_ [_ HV]]. change (4 * 0)%nat with 0%nat in HV.
  destruct (fillFrom fillVelocityStep (List.length dtVelocity) g' dtVelocity 0)
    as [velocities g''].
  cbn [fst] in HP, HV. split.
  - apply (HV j HjV). lia.
  - apply (HP j HjP). lia.
Qed.

Lemma initial_state_witness :
  let '(positions, g') :=
    fillPositionTexture (mkRng (fun _ => 1 / 2) 0) [0; 0; 0; 0; 0; 0; 0; 0] in
  let '(velocities, _) := fillVelocityTexture g' [0; 0; 0; 0; 0; 0; 0; 0] in
  length (agentVec velocities 1) = 0.3 * params_maxSpeed
  /\ length (agentVec positions 1) <= 0.6 * params_boundaryRadius.
Proof.
  apply (initial_state (mkRng (fun _ => 1 / 2) 0) [0; 0; 0; 0; 0; 0; 0; 0]
           [0; 0; 0; 0; 0; 0; 0; 0] 1).
  - intros n. simpl. lra.
  - simpl. lia.
  - simpl. lia.
Defined.

(* ================================================================== *)
(** * Further properties of the kernels *)

(* ------------------------------------------------------------------ *)
(** ** The stride loop on grids of any size *)

Lemma stride_large (W H : Z) :
  (300 <= W * H)%Z -> stride W H = (W * H / 300)%Z.
Proof.
  intros HN. unfold stride, TOTAL_PARTICLES, MAX_SAMPLES.
  apply Z.max_r. apply Z.div_le_lower_bound; lia.
Qed.

(** X1: on a grid of at least 300 agents the loop stays inside the grid: every
    iteration addresses the texel [(px, py)] of an existing agent, without
    wrapping, and no agent is read twice. *)
Theorem sampler_stays_in_grid (W H : Z) (tex : Texture) :
  (0 < W)%Z -> (0 < H)%Z -> (300 <= W * H)%Z ->
  (forall i, In i iterations ->
     (0 <= idx W H i < W * H)%Z
     /\ (0 <= px W H i < W)%Z /\ (0 <= py W H i < H)%Z
     /\ texture2D W H tex (neighborUV W H i) = tex (px W H i) (py W H i))
  /\ NoDup (map (idx W H) iterations).
Proof.
  intros HW HH HN.
  assert (Hs : (1 <= stride W H)%Z) by (unfold stride; lia).
  assert (Hs300 : (300 * stride W H <= W * H)%Z).
  { rewrite stride_large by assumption. apply Z.mul_div_le. lia. }
  split.
  - intros i Hi. apply iterations_range in Hi.
    assert (Hidx : (0 <= idx W H i < W * H)%Z) by (unfold idx; nia).
    assert (Hpx : (0 <= px W H i < W)%Z) by (apply Z.mod_pos_bound; lia).
    assert (Hpy : (0 <= py W H i < H)%Z).
    { unfold py. split; [apply Z.div_pos; lia |].
      apply Z.div_lt_upper_bound; lia. }
    repeat split; try lia.
    rewrite texture2D_neighbor by assumption.
    now rewrite (Z.mod_small (py W H i)) by lia.
  - apply Injective_map_NoDup; [| apply iterations_NoDup].
    intros a b E. unfold idx in E. nia.
Qed.

Lemma sampler_stays_in_grid_witness :
  (forall i, In i iterations ->
     (0 <= idx 512 512 i < 512 * 512)%Z
     /\ (0 <= px 512 512 i < 512)%Z /\ (0 <= py 512 512 i < 512)%Z
     /\ texture2D 512 512 (fun _ _ => mkVec4 zero 1) (neighborUV 512 512 i)
        = (fun _ _ => mkVec4 zero 1) (px 512 512 i) (py 512 512 i))
  /\ NoDup (map (idx 512 512) iterations).
Proof.
  apply (sampler_stays_in_grid 512 512 (fun _ _ => mkVec4 zero 1)); lia.
Defined.

(** X2: on a grid of fewer than 300 agents the stride is 1 and the loop runs
    past the last agent: the texture wraps, and iteration [i + W * H] reads
    the agent iteration [i] has read already. *)
Theorem sampler_wraps_on_small_grid (W H i : Z) (tex : Texture) :
  (0 < W)%Z -> (0 < H)%Z -> (W * H < 300)%Z ->
  (0 <= i)%Z -> (i + W * H < 300)%Z ->
  stride W H = 1%Z
  /\ In i iterations /\ In (i + W * H)%Z iterations
  /\ texture2D W H tex (neighborUV W H (i + W * H))
     = texture2D W H tex (neighborUV W H i).
Proof.
  intros HW HH HN Hi Hi2.
  assert (Hs : stride W H = 1%Z).
  { unfold stride, TOTAL_PARTICLES, MAX_SAMPLES.
    rewrite Z.div_small by nia. reflexivity. }
  split; [exact Hs |].
  split; [apply iterations_range; nia |].
  split; [apply iterations_range; nia |].
  rewrite !texture2D_neighbor by assumption.
  unfold px, py, idx. rewrite Hs, !Z.mul_1_r.
  replace (i + W * H)%Z with (i + H * W)%Z by ring.
  rewrite Z.mod_add, Z.div_add by lia.
  f_equal.
  replace ((i / W + H) mod H)%Z with ((i / W + 1 * H) mod H)%Z
    by (f_equal; lia).
  apply Z.mod_add. lia.
Qed.

Lemma sampler_wraps_on_small_grid_witness :
  stride 4 4 = 1%Z
  /\ In 3%Z iterations /\ In (3 + 4 * 4)%Z iterations
  /\ texture2D 4 4 (fun _ _ => mkVec4 zero 1) (neighborUV 4 4 (3 + 4 * 4))
     = texture2D 4 4 (fun _ _ => mkVec4 zero 1) (neighborUV 4 4 3).
Proof.
  apply (sampler_wraps_on_small_grid 4 4 3 (fun _ _ => mkVec4 zero 1)); lia.
Defined.

(* ------------------------------------------------------------------ *)
(** ** What the accumulators hold after the loop *)

(** X3: A texel at the reader's own position, the reader's own texel above all,
    changes no accumulator: both updates are behind [dist > 0]. *)
Theorem coincident_neighbor_ignored (W H : Z) (tp tv : Texture) (u : Uniforms)
    (frag : Q * Q) (myPos : vec3) (acc : Accum) (i : Z) :
  xyz (texture2D W H tp (neighborUV W H i)) = myPos ->
  loopBody W H tp tv u frag myPos acc i = Some acc.
Proof.
  intros E. unfold loopBody. destruct (isSelf W H i frag); [reflexivity |].
  rewrite E.
  assert (Hd : length (myPos -v myPos) = 0).
  { apply length_zero_iff. vec_eq. }
  rewrite Hd. unfold addSeparation, addAlignCohesion.
  assert (G : Rgtb 0 0.0 = false) by (apply Rgtb_false; lra).
  rewrite G. reflexivity.
Qed.

Lemma coincident_neighbor_ignored_witness :
  loopBody 512 512 (fun _ _ => mkVec4 (mkVec3 1 2 3) 1)
    (fun _ _ => mkVec4 (mkVec3 20 0 0) 1) (initialUniforms 0.016 0)
    (fragCoord 0 0) (mkVec3 1 2 3) accum0 0
  = Some accum0.
Proof.
  apply (coincident_neighbor_ignored 512 512
           (fun _ _ => mkVec4 (mkVec3 1 2 3) 1)
           (fun _ _ => mkVec4 (mkVec3 20 0 0) 1) (initialUniforms 0.016 0)
           (fragCoord 0 0) (mkVec3 1 2 3) accum0 0).
  reflexivity.
Defined.

Section PerceptionLoop.

Variables W H : Z.
Variables tp tv : Texture.
Variable u : Uniforms.
Variable frag : Q * Q.
Variable myPos : vec3.

Let read (i : Z) : list (vec3 * vec3) :=
  if isSelf W H i frag then []
  else [(xyz (texture2D W H tp (neighborUV W H i)),
         xyz (texture2D W H tv (neighborUV W H i)))].

Let seen (l : list Z) : list (vec3 * vec3) :=
  within myPos (uPerceptionRadius u) (flat_map read l).

(** The alignment and cohesion fields of two accumulator states differ by
    the neighbours [s]. *)
Let grows (acc acc' : Accum) (s : list (vec3 * vec3)) : Prop :=
  alignment acc' = alignment acc +v vsum (map snd s)
  /\ cohesion acc' = cohesion acc +v vsum (map fst s)
  /\ alignmentCount acc' = alignmentCount acc + INR (List.length s)
  /\ cohesionCount acc' = cohesionCount acc + INR (List.length s).

Lemma addSeparation_perception (diff : vec3) (acc : Accum) :
  exists acc', addSeparation u diff (length diff) acc = Some acc'
               /\ grows acc acc' [].
Proof.
  destruct (addSeparation_cases u diff acc) as [[_ E] | [_ E]];
    rewrite E; eexists; (split; [reflexivity |]); unfold grows; simpl;
    change (vsum []) with zero; rewrite !add_zero_r; repeat split; lra.
Qed.

Lemma loopBody_perception (acc : Accum) (i : Z) :
  exists acc', loopBody W H tp tv u frag myPos acc i = Some acc'
               /\ grows acc acc' (within myPos (uPerceptionRadius u) (read i)).
Proof.
  unfold loopBody, read. destruct (isSelf W H i frag).
  - exists acc. split; [reflexivity |]. unfold grows; simpl.
    change (vsum []) with zero. rewrite !add_zero_r. repeat split; lra.
  - set (np := xyz (texture2D W H tp (neighborUV W H i))).
    set (nv := xyz (texture2D W H tv (neighborUV W H i))).
    destruct (addSeparation_perception (myPos -v np) acc)
      as [acc1 [E [Ha [Hc [Hac Hcc]]]]].
    rewrite E. cbn [bind]. eexists. split; [reflexivity |].
    simpl in Ha, Hc, Hac, Hcc. change (vsum []) with zero in Ha, Hc.
    rewrite add_zero_r in Ha, Hc.
    unfold within, grows, addAlignCohesion. cbn [filter fst].
    replace 0.0 with 0 by lra. replace 1.0 with 1 by lra.
    destruct (Rgtb (length (myPos -v np)) 0
              && Rltb (length (myPos -v np)) (uPerceptionRadius u));
      cbn [alignment cohesion alignmentCount cohesionCount map List.length
           fst snd].
    + rewrite !vsum_cons. change (vsum []) with zero. rewrite !add_zero_r.
      rewrite Ha, Hc, Hac, Hcc. simpl INR. repeat split; lra.
    + change (vsum []) with zero. rewrite !add_zero_r.
      rewrite Ha, Hc, Hac, Hcc. simpl INR. repeat split; lra.
Qed.

Lemma forEach_perception (l : list Z) (acc : Accum) :
  exists acc', forEach (loopBody W H tp tv u frag myPos) l acc = Some acc'
               /\ grows acc acc' (seen l).
Proof.
  revert acc. induction l as [| i l IH]; intros acc.
  - exists acc. split; [reflexivity |]. unfold grows, seen, within; simpl.
    change (vsum []) with zero. rewrite !add_zero_r. repeat split; lra.
  - cbn [forEach].
    destruct (loopBody_perception acc i) as [acc1 [E1 [Ha1 [Hc1 [Hac1 Hcc1]]]]].
    rewrite E1. cbn [bind].
    destruct (IH acc1) as [acc' [E' [Ha [Hc [Hac Hcc]]]]].
    exists acc'. split; [exact E' |].
    unfold grows, seen, within in *. cbn [flat_map].
    rewrite filter_app, !map_app, !vsum_app, length_app, plus_INR.
    rewrite Ha, Hc, Hac, Hcc, Ha1, Hc1, Hac1, Hcc1.
    rewrite !add_assoc. repeat split; lra.
Qed.

End PerceptionLoop.

Lemma within_shrinks (myPos : vec3) (r1 r2 : R) (l : list (vec3 * vec3)) :
  r1 <= r2 ->
  (List.length (within myPos r1 l) <= List.length (within myPos r2 l))%nat.
Proof.
  intros Hr. unfold within. induction l as [| n l IH]; simpl; [lia |].
  destruct (Rgtb (length (myPos -v fst n)) 0); simpl.
  - destruct (Rltb _ r1) eqn:G1; destruct (Rltb _ r2) eqn:G2; simpl; try lia.
    apply Rltb_true in G1. apply Rltb_false in G2. lra.
  - exact IH.
Qed.

(** X4: after the loop the alignment accumulator is the sum of the velocities,
    and the cohesion accumulator the sum of the positions, of the neighbours
    read at a distance [0 < d < perceptionRadius]; both counters are their
    number, and the separation counter is the number of those closer than
    [separationRadius]. *)
Theorem perception_accumulators (W H : Z) (cur : Generation) (u : Uniforms)
    (frag : Q * Q) (myPos : vec3) :
  let nbrs := sampledNeighbors W H (texturePosition cur) (textureVelocity cur)
                frag in
  let seen := within myPos (uPerceptionRadius u) nbrs in
  exists acc,
    sampleLoop W H (texturePosition cur) (textureVelocity cur) u frag myPos
    = Some acc
    /\ alignment acc = vsum (map snd seen)
    /\ cohesion acc = vsum (map fst seen)
    /\ alignmentCount acc = INR (List.length seen)
    /\ cohesionCount acc = INR (List.length seen)
    /\ separationCount acc
       = INR (List.length (within myPos (uSeparationRadius u) nbrs)).
Proof.
  intros nbrs seen.
  destruct (forEach_perception W H (texturePosition cur) (textureVelocity cur)
              u frag myPos iterations accum0)
    as [acc [E [Ha [Hc [Hac Hcc]]]]].
  destruct (forEach_separation W H (texturePosition cur) (textureVelocity cur)
              u frag myPos iterations accum0)
    as [acc2 [E2 [_ Hsc]]].
  assert (acc2 = acc) by congruence. subst acc2.
  exists acc. split; [exact E |].
  cbn [accum0 alignment cohesion alignmentCount cohesionCount separationCount]
    in Ha, Hc, Hac, Hcc, Hsc.
  rewrite add_zero_l in Ha, Hc.
  repeat split; try assumption; unfold seen, nbrs, sampledNeighbors; lra.
Qed.

(** X5: the separation radius not exceeding the perception radius, the loop
    never counts more separation neighbours than alignment neighbours. *)
Theorem separation_count_le_alignment_count (W H : Z) (cur : Generation)
    (u : Uniforms) (frag : Q * Q) (myPos : vec3) :
  uSeparationRadius u <= uPerceptionRadius u ->
  exists acc,
    sampleLoop W H (texturePosition cur) (textureVelocity cur) u frag myPos
    = Some acc
    /\ separationCount acc <= alignmentCount acc.
Proof.
  intros Hr.
  destruct (forEach_perception W H (texturePosition cur) (textureVelocity cur)
              u frag myPos iterations accum0)
    as [acc [E [_ [_ [Hac _]]]]].
  destruct (forEach_separation W H (texturePosition cur) (textureVelocity cur)
              u frag myPos iterations accum0)
    as [acc2 [E2 [_ Hsc]]].
  assert (acc2 = acc) by congruence. subst acc2.
  exists acc. split; [exact E |].
  rewrite Hac, Hsc. cbn [accum0 alignmentCount separationCount].
  apply Rplus_le_compat_l, le_INR. now apply within_shrinks.
Qed.

Lemma separation_count_le_alignment_count_witness :
  exists acc,
    sampleLoop 512 512
      (texturePosition (uniformGeneration zero (mkVec3 20 0 0)))
      (textureVelocity (uniformGeneration zero (mkVec3 20 0 0)))
      (initialUniforms 0.016 0) (fragCoord 0 0) zero
    = Some acc
    /\ separationCount acc <= alignmentCount acc.
Proof.
  apply (separation_count_le_alignment_count 512 512
           (uniformGeneration zero (mkVec3 20 0 0)) (initialUniforms 0.016 0)
           (fragCoord 0 0) zero).
  simpl. lra.
Defined.

(* ------------------------------------------------------------------ *)
(** ** Sizes of the steering forces *)

Lemma length_scale (v : vec3) (k : R) : length (v *s k) = length v * Rabs k.
Proof.
  unfold length.
  replace (dot (v *s k) (v *s k)) with (dot v v * Rsqr k)
    by (unfold dot, scale, Rsqr; simpl; ring).
  rewrite sqrt_mult_alt by apply dot_nonneg.
  now rewrite sqrt_Rsqr_abs.
Qed.

Lemma unit_poly_range (t : R) : 0 <= t <= 1 -> 0 <= t * t * (3 - 2 * t) <= 1.
Proof.
  intros Ht. split.
  - apply Rmult_le_pos; nra.
  - assert (Hp : 0 <= (1 - t) * (1 - t) * (1 + 2 * t))
      by (apply Rmult_le_pos; nra).
    nra.
Qed.

Lemma smoothstep_range (edge0 edge1 x : R) :
  0 <= smoothstep edge0 edge1 x <= 1.
Proof. unfold smoothstep. apply unit_poly_range, clamp_unit_range. Qed.

Lemma smoothstep_below (edge0 edge1 x : R) :
  edge0 < edge1 -> x <= edge0 -> smoothstep edge0 edge1 x = 0.
Proof.
  intros He Hx. unfold smoothstep, clamp.
  assert (Hq : (x - edge0) / (edge1 - edge0) <= 0).
  { unfold Rdiv. rewrite <- (Rmult_0_l (/ (edge1 - edge0))).
    apply Rmult_le_compat_r; [| lra].
    apply Rlt_le, Rinv_0_lt_compat. lra. }
  rewrite Rmax_right by exact Hq. rewrite Rmin_left by lra. ring.
Qed.

(** X6: whatever the neighbours are, the alignment force has at most the
    magnitude [alignmentWeight]. *)
Theorem alignment_force_bounded (u : Uniforms) (myVel : vec3) (acc : Accum)
    (accel : vec3) :
  exists force,
    applyAlignment u myVel acc accel = Some (accel +v force)
    /\ length force <= Rabs (uAlignmentWeight u).
Proof.
  unfold applyAlignment.
  destruct (Rgtb (alignmentCount acc) 0.0).
  - set (steer := alignment acc /s alignmentCount acc -v myVel).
    destruct (Rgtb (length steer) 0.001) eqn:G.
    + apply Rgtb_true in G. rewrite normalize_defined by lra. cbn [bind].
      eexists. split; [reflexivity |].
      rewrite length_scale, length_unit by lra. lra.
    + apply Rgtb_false in G. cbn [bind].
      eexists. split; [reflexivity |].
      rewrite length_scale.
      pose proof (Rabs_pos (uAlignmentWeight u)).
      pose proof (length_nonneg steer). nra.
  - exists zero. rewrite add_zero_r. split; [reflexivity |].
    rewrite length_zero. apply Rabs_pos.
Qed.

(** X7: whatever the neighbours are, the cohesion force has at most the
    magnitude [cohesionWeight]. *)
Theorem cohesion_force_bounded (u : Uniforms) (myPos : vec3) (acc : Accum)
    (accel : vec3) :
  exists force,
    applyCohesion u myPos acc accel = Some (accel +v force)
    /\ length force <= Rabs (uCohesionWeight u).
Proof.
  unfold applyCohesion.
  destruct (Rgtb (cohesionCount acc) 0.0).
  - set (toCenter := cohesion acc /s cohesionCount acc -v myPos).
    destruct (Rgtb (length toCenter) 0.001) eqn:G.
    + apply Rgtb_true in G. rewrite normalize_defined by lra. cbn [bind].
      eexists. split; [reflexivity |].
      rewrite !length_scale, length_unit by lra.
      pose proof (smoothstep_range 0.0 (uPerceptionRadius u) (length toCenter))
        as Hs.
      rewrite (Rabs_pos_eq (smoothstep _ _ _)) by lra.
      pose proof (Rabs_pos (uCohesionWeight u)). nra.
    + apply Rgtb_false in G. cbn [bind].
      eexists. split; [reflexivity |].
      rewrite length_scale.
      pose proof (Rabs_pos (uCohesionWeight u)).
      pose proof (length_nonneg toCenter). nra.
  - exists zero. rewrite add_zero_r. split; [reflexivity |].
    rewrite length_zero. apply Rabs_pos.
Qed.

(** X8: the centroid pull has at most the magnitude [0.15 * cohesionWeight], and
    there is none for an agent within half the boundary radius. *)
Theorem centroid_pull_bounded (u : Uniforms) (myPos accel : vec3) :
  myPos <> splat (- 0.0001) ->
  exists force,
    applyCentroidPull u myPos accel = Some (accel +v force)
    /\ length force <= 0.15 * Rabs (uCohesionWeight u)
    /\ (0 < uBoundaryRadius u -> length myPos <= 0.5 * uBoundaryRadius u ->
        force = zero).
Proof.
  intros Hp. unfold applyCentroidPull.
  assert (Hn : length (myPos +v splat 0.0001) <> 0).
  { intros E. apply length_zero_iff, offset_zero_iff in E. contradiction. }
  rewrite normalize_defined by exact Hn. cbn [bind].
  set (n := (myPos +v splat 0.0001) /s length (myPos +v splat 0.0001)).
  set (pull := smoothstep (uBoundaryRadius u * 0.5) (uBoundaryRadius u)
                          (length myPos)).
  exists (n *s pull *s uCohesionWeight u *s (- 0.15)).
  split; [f_equal; vec_eq; ring |].
  split.
  - rewrite !length_scale. unfold n. rewrite length_unit by exact Hn.
    pose proof (smoothstep_range (uBoundaryRadius u * 0.5) (uBoundaryRadius u)
                                 (length myPos)) as Hs.
    fold pull in Hs. rewrite (Rabs_pos_eq pull) by lra.
    replace (Rabs (- 0.15)) with 0.15 by (rewrite Rabs_left; lra).
    pose proof (Rabs_pos (uCohesionWeight u)). nra.
  - intros HR Hin. unfold pull.
    rewrite smoothstep_below by lra. vec_eq; ring.
Qed.

Lemma centroid_pull_bounded_witness :
  exists force,
    applyCentroidPull (initialUniforms 0.016 0) (mkVec3 100 0 0) zero
    = Some (zero +v force)
    /\ length force <= 0.15 * Rabs (uCohesionWeight (initialUniforms 0.016 0))
    /\ (0 < uBoundaryRadius (initialUniforms 0.016 0) ->
        length (mkVec3 100 0 0)
        <= 0.5 * uBoundaryRadius (initialUniforms 0.016 0) ->
        force = zero).
Proof.
  apply (centroid_pull_bounded (initialUniforms 0.016 0) (mkVec3 100 0 0) zero).
  apply not_offset_origin_x. lra.
Defined.

(* ------------------------------------------------------------------ *)
(** ** The speed clamp as an operation *)

Lemma clampSpeed_scales (u : Uniforms) (v : vec3) :
  0 < uMaxSpeed u ->
  exists k, 0 < k /\ clampSpeed u v = Some (v *s k).
Proof.
  intros HM. unfold clampSpeed.
  destruct (Rgtb (length v) (uMaxSpeed u)) eqn:Hmax.
  - apply Rgtb_true in Hmax.
    rewrite normalize_defined by lra. cbn [bind].
    assert (Hlo : Rltb (length v) (uMaxSpeed u * 0.2) = false)
      by (apply Rltb_false; lra).
    rewrite Hlo. cbn [andb].
    exists (uMaxSpeed u / length v). split.
    + apply Rdiv_lt_0_compat; lra.
    + f_equal. vec_eq; field; lra.
  - cbn [bind].
    destruct (Rltb (length v) (uMaxSpeed u * 0.2) && Rgtb (length v) 0.001)
      eqn:G.
    + apply andb_prop in G. destruct G as [_ G]. apply Rgtb_true in G.
      rewrite normalize_defined by lra. cbn [bind].
      exists (uMaxSpeed u * 0.2 / length v). split.
      * apply Rdiv_lt_0_compat; lra.
      * f_equal. vec_eq; field; lra.
    + exists 1. split; [lra |]. f_equal. vec_eq.
Qed.

(** X10: the clamp never turns a velocity: what it returns is the integrated
    velocity times a positive factor. *)
Theorem clampSpeed_keeps_direction (u : Uniforms) (v : vec3) :
  0 < uMaxSpeed u ->
  exists k, 0 < k /\ clampSpeed u v = Some (v *s k).
Proof. apply clampSpeed_scales. Qed.

Lemma clampSpeed_keeps_direction_witness :
  exists k, 0 < k
            /\ clampSpeed (initialUniforms 0.016 0) (mkVec3 100 0 0)
               = Some (mkVec3 100 0 0 *s k).
Proof.
  apply (clampSpeed_keeps_direction (initialUniforms 0.016 0) (mkVec3 100 0 0)).
  simpl. lra.
Defined.

(** X11: clamping a clamped velocity changes nothing. *)
Theorem clampSpeed_idempotent (u : Uniforms) (v v' : vec3) :
  0 < uMaxSpeed u ->
  clampSpeed u v = Some v' ->
  clampSpeed u v' = Some v'.
Proof.
  intros HM E.
  destruct (clampSpeed_cases u v HM) as [w [Ew Hcases]].
  assert (w = v') by congruence. subst w.
  destruct Hcases as [[_ Hl] | [[_ [_ [_ Hl]]] | [Hle [Hmid ->]]]].
  - apply clampSpeed_unchanged; [| left]; lra.
  - apply clampSpeed_unchanged; [| left]; lra.
  - apply clampSpeed_unchanged; assumption.
Qed.

Lemma clampSpeed_idempotent_witness :
  clampSpeed (initialUniforms 0.016 0) (mkVec3 20 0 0) = Some (mkVec3 20 0 0).
Proof.
  apply (clampSpeed_idempotent (initialUniforms 0.016 0) (mkVec3 20 0 0)
           (mkVec3 20 0 0)); [simpl; lra |].
  apply clampSpeed_unchanged; [| left]; rewrite length_x by lra; simpl; lra.
Defined.

(* ------------------------------------------------------------------ *)
(** ** The noise field *)

Lemma fract_range (x : R) : 0 <= fract x < 1.
Proof.
  unfold fract, floor. destruct (base_Int_part x) as [Hlo Hhi]. lra.
Qed.

Lemma floor_IZR (z : Z) : floor (IZR z) = IZR z.
Proof.
  unfold floor. f_equal. symmetry. apply Int_part_spec. lra.
Qed.

Lemma fract_IZR (z : Z) : fract (IZR z) = 0.
Proof. unfold fract. rewrite floor_IZR. ring. Qed.

Lemma hash3_components (p : vec3) :
  (-1 <= vx (hash3 p) < 1) /\ (-1 <= vy (hash3 p) < 1)
  /\ (-1 <= vz (hash3 p) < 1).
Proof.
  unfold hash3. cbn [adds scale fract3 sin3 vx vy vz].
  repeat split;
    match goal with
    | |- context [fract ?a] => pose proof (fract_range a)
    end; lra.
Qed.

Lemma mix_bound (a b t lo hi : R) :
  0 <= t <= 1 -> lo <= a <= hi -> lo <= b <= hi -> lo <= mix a b t <= hi.
Proof. intros Ht Ha Hb. unfold mix. split; nra. Qed.

Lemma corner_bound (i f c : vec3) :
  -1 <= vx f - vx c <= 1 -> -1 <= vy f - vy c <= 1 -> -1 <= vz f - vz c <= 1 ->
  -3 <= corner i f c <= 3.
Proof.
  intros Hx Hy Hz. unfold corner, dot. cbn [sub vx vy vz].
  destruct (hash3_components (i +v c)) as [Hhx [Hhy Hhz]].
  split; nra.
Qed.

(** X13: the noise vanishes at every point of the integer lattice. *)
Theorem noise3D_lattice (a b c : Z) :
  noise3D (mkVec3 (IZR a) (IZR b) (IZR c)) = 0.
Proof.
  unfold noise3D.
  assert (Hf : fract3 (mkVec3 (IZR a) (IZR b) (IZR c)) = mkVec3 0 0 0).
  { unfold fract3. cbn [vx vy vz]. now rewrite !fract_IZR. }
  rewrite Hf. cbv zeta. cbn [vx vy vz].
  unfold mix, corner, dot. cbn [sub vx vy vz]. ring.
Qed.

Lemma noise3D_within (p : vec3) : -3 <= noise3D p <= 3.
Proof.
  unfold noise3D. cbv zeta. cbn [vx vy vz fract3].
  pose proof (fract_range (vx p)) as Hx.
  pose proof (fract_range (vy p)) as Hy.
  pose proof (fract_range (vz p)) as Hz.
  assert (Hu : forall t, 0 <= t < 1 -> 0 <= t * t * (3.0 - 2.0 * t) <= 1).
  { intros t Ht. replace (3.0 - 2.0 * t) with (3 - 2 * t) by lra.
    apply unit_poly_range. lra. }
  repeat apply mix_bound; try (apply Hu; assumption);
    apply corner_bound; unfold fract3; cbn [vx vy vz]; lra.
Qed.

(** Every component of the curl lies within [-60, 60]. *)
Lemma curlNoise_bounded (p : vec3) :
  Rabs (vx (curlNoise p)) <= 60 /\ Rabs (vy (curlNoise p)) <= 60
  /\ Rabs (vz (curlNoise p)) <= 60.
Proof.
  unfold curlNoise, curlNoiseOf. cbv zeta. cbn [vx vy vz]. unfold e.
  repeat split; apply Rabs_le;
    repeat match goal with
    | |- context [noise3D ?q] =>
        let n := fresh "n" in
        let Hn := fresh "Hn" in
        pose proof (noise3D_within q) as Hn;
        set (n := noise3D q) in *; clearbody n
    end; lra.
Qed.

(** X9: the turbulence force is bounded by the slider alone: at most
    [60 * turbulence] along each axis, wherever the agent is and whatever the
    time. *)
Theorem turbulence_bounded (u : Uniforms) (myPos accel : vec3) :
  exists force,
    applyTurbulence u myPos accel = accel +v force
    /\ Rabs (vx force) <= 60 * Rabs (uTurbulence u)
    /\ Rabs (vy force) <= 60 * Rabs (uTurbulence u)
    /\ Rabs (vz force) <= 60 * Rabs (uTurbulence u).
Proof.
  unfold applyTurbulence. cbv zeta. eexists. split; [reflexivity |].
  destruct (curlNoise_bounded (adds (myPos *s 0.008) (uTime u * 0.15)))
    as [Hx [Hy Hz]].
  cbn [scale vx vy vz]. rewrite !Rabs_mult.
  pose proof (Rabs_pos (uTurbulence u)). repeat split; nra.
Qed.

(** X12: every component of a lattice gradient lies in [-1, 1). *)
Theorem hash3_range (p : vec3) :
  (-1 <= vx (hash3 p) < 1) /\ (-1 <= vy (hash3 p) < 1)
  /\ (-1 <= vz (hash3 p) < 1).
Proof. apply hash3_components. Qed.

(** X14: the noise stays within [-3, 3]. *)
Theorem noise3D_bounded (p : vec3) : -3 <= noise3D p <= 3.
Proof. apply noise3D_within. Qed.

(* ------------------------------------------------------------------ *)
(** ** From one frame to the next *)

Lemma computeVelocity_speed (W H : Z) (cur : Generation) (u : Uniforms)
    (x y : Z) (out : vec4) :
  (0 <= x < W)%Z -> (0 <= y < H)%Z -> 0 < uMaxSpeed u ->
  computeVelocity W H cur u x y = Some out ->
  length (xyz out) <= uMaxSpeed u.
Proof.
  intros Hx Hy HM E. rewrite computeVelocity_unfold in E by assumption.
  destruct (acceleration _ _ _ _ _ _ _ _) as [a |]; [| discriminate].
  cbn [bind] in E.
  destruct (clampSpeed_cases u (xyz (textureVelocity cur x y) +v a *s uDelta u) HM)
    as [v' [Ev Hcases]].
  rewrite Ev in E. cbn [bind] in E. inversion E; subst out. cbn [xyz].
  destruct Hcases as [[_ Hl] | [[_ [_ [_ Hl]]] | [Hle [_ ->]]]]; lra.
Qed.

Lemma clampDelta_range (now lastTime : R) :
  lastTime <= now -> 0 <= clampDelta (now - lastTime) <= 0.05.
Proof.
  intros Ht. unfold clampDelta. split.
  - apply Rmin_glb; lra.
  - apply Rmin_r.
Qed.

(** X15: whichever velocity texture is bound to the position shader, if the
    texel it reads was written by the velocity kernel with a positive
    [maxSpeed], the position shader run with the [uDelta] that [animate]
    sets moves the agent by at most [0.05 * maxSpeed]: the velocity was
    clamped, and the frame time is capped at 0.05 however long the frame
    took. *)
Theorem displacement_bounded (W H : Z) (u0 u : Uniforms)
    (g : Generation) (texturePosition textureVelocity : Texture)
    (now lastTime : R) (x y : Z) :
  (0 <= x < W)%Z -> (0 <= y < H)%Z ->
  0 < uMaxSpeed u0 ->
  computeVelocity W H g u0 x y = Some (textureVelocity x y) ->
  lastTime <= now ->
  length (xyz (PositionShader.main W H texturePosition textureVelocity
                 (uDelta (Frames.animateUniforms u now lastTime))
                 (fragCoord x y))
          -v xyz (texturePosition x y))
  <= 0.05 * uMaxSpeed u0.
Proof.
  intros Hx Hy HM Ev Ht.
  apply computeVelocity_speed in Ev; try assumption.
  unfold PositionShader.main.
  change (PositionShader.uv W H (fragCoord x y))
    with (VelocityShader.uv W H (fragCoord x y)).
  rewrite !texture2D_self by assumption.
  cbn [xyz Frames.animateUniforms uDelta].
  pose proof (clampDelta_range now lastTime Ht) as Hd.
  replace (xyz (texturePosition x y)
           +v xyz (textureVelocity x y) *s clampDelta (now - lastTime)
           -v xyz (texturePosition x y))
    with (xyz (textureVelocity x y) *s clampDelta (now - lastTime))
    by (vec_eq; ring).
  rewrite length_scale, Rabs_pos_eq by lra.
  pose proof (length_nonneg (xyz (textureVelocity x y))). nra.
Qed.

Lemma displacement_bounded_witness :
  length (xyz (PositionShader.main 512 512
                 (fun _ _ => mkVec4 (mkVec3 350 0 0) 1)
                 (fun _ _ => mkVec4 (mkVec3 15 0 0) 1.0)
                 (uDelta (Frames.animateUniforms (zeroForceUniforms 0.05 0) 3 1))
                 (fragCoord 0 0))
          -v xyz ((fun _ _ => mkVec4 (mkVec3 350 0 0) 1) 0%Z 0%Z))
  <= 0.05 * uMaxSpeed (zeroForceUniforms 0.05 0).
Proof.
  apply (displacement_bounded 512 512 (zeroForceUniforms 0.05 0)
           (zeroForceUniforms 0.05 0)
           (uniformGeneration (mkVec3 350 0 0) (mkVec3 20 0 0))
           (fun _ _ => mkVec4 (mkVec3 350 0 0) 1)
           (fun _ _ => mkVec4 (mkVec3 15 0 0) 1.0) 3 1 0 0); try lia.
  - simpl. lra.
  - apply next_velocity_on_boundary_20.
  - lra.
Defined.

(* ------------------------------------------------------------------ *)
(** ** Instancing *)

(** X16: the instance [i] of the bird mesh reads, through its [reference], the
    texel of the agent with id [i]: texel [(i mod W, i div W)] of the grid,
    whose id is [i] again; so distinct instances show distinct agents. *)
Theorem reference_reads_agent (W H i : Z) (tex : Texture) :
  (0 < W)%Z -> (0 < H)%Z -> (0 <= i < W * H)%Z ->
  texture2D W H tex (Bird.reference W H i) = tex (i mod W)%Z (i / W)%Z
  /\ (0 <= i mod W < W)%Z /\ (0 <= i / W < H)%Z
  /\ idOfTexel W (i mod W) (i / W) = i.
Proof.
  intros HW HH Hi.
  assert (Hx : (0 <= i mod W < W)%Z) by (apply Z.mod_pos_bound; lia).
  assert (Hy : (0 <= i / W < H)%Z).
  { split; [apply Z.div_pos; lia |]. apply Z.div_lt_upper_bound; lia. }
  split; [| split; [exact Hx | split; [exact Hy |]]].
  - unfold texture2D, Bird.reference. cbv zeta. cbn [fst snd].
    assert (Hq : forall size z, (0 < size)%Z ->
              texel size (inject_Z z / inject_Z size + (1 # 2) / inject_Z size)
              = (z mod size)%Z).
    { intros size z Hs. rewrite <- (texel_centre size z Hs). unfold texel.
      f_equal. apply Qfloor_comp. field.
      intros E. unfold Qeq in E; simpl in E. lia. }
    rewrite !Hq by assumption.
    now rewrite Z.mod_mod, (Z.mod_small (i / W)) by lia.
  - unfold idOfTexel. rewrite Z.mul_comm. symmetry. apply Z.div_mod. lia.
Qed.

Lemma reference_reads_agent_witness :
  texture2D 512 512 (fun _ _ => mkVec4 zero 1) (Bird.reference 512 512 1000)
  = (fun _ _ => mkVec4 zero 1) (1000 mod 512)%Z (1000 / 512)%Z
  /\ (0 <= 1000 mod 512 < 512)%Z /\ (0 <= 1000 / 512 < 512)%Z
  /\ idOfTexel 512 (1000 mod 512) (1000 / 512) = 1000%Z.
Proof.
  apply (reference_reads_agent 512 512 1000 (fun _ _ => mkVec4 zero 1)); lia.
Defined.

(* ------------------------------------------------------------------ *)
(** ** The bird vertex shader *)

Import Props2.

Lemma cross_dot_l (a b : vec3) : dot (Bird.cross a b) a = 0.
Proof. unfold dot, Bird.cross; simpl; ring. Qed.

Lemma cross_dot_r (a b : vec3) : dot (Bird.cross a b) b = 0.
Proof. unfold dot, Bird.cross; simpl; ring. Qed.

Lemma cross_norm (a b : vec3) :
  dot (Bird.cross a b) (Bird.cross a b)
  = dot a a * dot b b - dot a b * dot a b.
Proof. unfold dot, Bird.cross; simpl; ring. Qed.

Lemma dot_comm (a b : vec3) : dot a b = dot b a.
Proof. unfold dot; ring. Qed.

Lemma dot_divs_l (a b : vec3) (l : R) : dot (a /s l) b = dot a b / l.
Proof. unfold dot, divs, Rdiv; simpl; ring. Qed.

Lemma unit_dot (v : vec3) : length v = 1 -> dot v v = 1.
Proof. intros Hl. rewrite <- length_sqr, Hl. ring. Qed.

Lemma dot_unit (v : vec3) : dot v v = 1 -> length v = 1.
Proof. intros Hd. unfold length. rewrite Hd. apply sqrt_1. Qed.

Lemma dot_pos_length (v : vec3) : 0 < dot v v -> length v <> 0.
Proof.
  intros Hd. unfold length. apply Rgt_not_eq, sqrt_lt_R0. exact Hd.
Qed.

(** [forward] is always defined and of length 1. *)
Lemma forward_unit (birdVel : vec3) :
  exists f, Bird.forward birdVel = Some f /\ dot f f = 1
            /\ (0.001 < length birdVel -> f = birdVel /s length birdVel)
            /\ (length birdVel <= 0.001 -> f = mkVec3 0 0 1).
Proof.
  unfold Bird.forward. cbv zeta.
  destruct (Rgtb (length birdVel) 0.001) eqn:G.
  - apply Rgtb_true in G. rewrite normalize_defined by lra.
    eexists. split; [reflexivity |].
    split; [apply unit_dot, length_unit; lra |].
    split; [reflexivity | lra].
  - apply Rgtb_false in G. eexists. split; [reflexivity |].
    split; [unfold dot; simpl; lra |].
    split; [lra | intros _; vec_eq].
Qed.

(** The cross product the shader normalises into [right] is never zero. *)
Lemma cross_forward_up_nonzero (f : vec3) :
  dot f f = 1 ->
  0 < dot (Bird.cross f (Bird.up f)) (Bird.cross f (Bird.up f)).
Proof.
  intros Hf. unfold Bird.up. cbv zeta.
  assert (Hy : dot f (mkVec3 0.0 1.0 0.0) = vy f) by (unfold dot; simpl; lra).
  rewrite Hy.
  destruct (Rgtb (Rabs (vy f)) 0.999) eqn:G.
  - apply Rgtb_true in G. rewrite cross_norm, Hf.
    assert (Hsq : 0.999 * 0.999 < vy f * vy f).
    { unfold Rabs in G. destruct (Rcase_abs (vy f)); nra. }
    unfold dot in *; simpl in *. nra.
  - apply Rgtb_false in G. rewrite cross_norm, Hf.
    assert (Hsq : vy f * vy f <= 0.999 * 0.999).
    { unfold Rabs in G. destruct (Rcase_abs (vy f)); nra. }
    unfold dot; simpl. nra.
Qed.

Lemma rotMat_orthonormal (birdVel : vec3) :
  exists m,
    Bird.rotMat birdVel = Some m
    /\ orthonormal m
    /\ Bird.mulMV m (mkVec3 0 1 0) = Bird.col1 m
    /\ (0.001 < length birdVel -> Bird.col1 m = birdVel /s length birdVel)
    /\ (length birdVel <= 0.001 -> Bird.col1 m = mkVec3 0 0 1).
Proof.
  unfold Bird.rotMat.
  destruct (forward_unit birdVel) as [f [-> [Hf [Hfast Hslow]]]].
  cbn [bind]. cbv zeta.
  pose proof (cross_forward_up_nonzero f Hf) as Hc.
  set (c := Bird.cross f (Bird.up f)) in *.
  assert (Hl : length c <> 0) by now apply dot_pos_length.
  rewrite normalize_defined by exact Hl. cbn [bind].
  eexists. split; [reflexivity |].
  assert (Hrr : dot (c /s length c) (c /s length c) = 1)
    by now apply unit_dot, length_unit.
  assert (Hrf : dot (c /s length c) f = 0).
  { rewrite dot_divs_l. unfold c. rewrite cross_dot_l. unfold Rdiv. ring. }
  split; [| split; [| split; [exact Hfast | exact Hslow]]].
  - unfold orthonormal. cbn [Bird.col0 Bird.col1 Bird.col2].
    repeat split.
    + exact Hrr.
    + exact Hf.
    + rewrite cross_norm, Hrr, Hf, Hrf. ring.
    + exact Hrf.
    + rewrite dot_comm. apply cross_dot_l.
    + rewrite dot_comm. apply cross_dot_r.
  - unfold Bird.mulMV. cbn [Bird.col0 Bird.col1 Bird.col2 vx vy vz].
    vec_eq; ring.
Qed.

(** X17: for every velocity, the zero velocity included, the shader builds a
    rotation: [rotMat] is defined, its columns are orthonormal, its middle
    column, the image of the cone tip [+Y], is the direction of flight, or
    [+Z] for a bird slower than 0.001. *)
Theorem bird_basis_orthonormal (birdVel : vec3) :
  exists m,
    Bird.rotMat birdVel = Some m
    /\ orthonormal m
    /\ Bird.mulMV m (mkVec3 0 1 0) = Bird.col1 m
    /\ (0.001 < length birdVel -> Bird.col1 m = birdVel /s length birdVel)
    /\ (length birdVel <= 0.001 -> Bird.col1 m = mkVec3 0 0 1).
Proof. apply rotMat_orthonormal. Qed.

Lemma mulMV_isometry (m : Bird.mat3) (v : vec3) :
  orthonormal m -> length (Bird.mulMV m v) = length v.
Proof.
  intros [H00 [H11 [H22 [H01 [H02 H12]]]]]. unfold length. f_equal.
  replace (dot (Bird.mulMV m v) (Bird.mulMV m v))
    with (vx v * vx v * dot (Bird.col0 m) (Bird.col0 m)
          + vy v * vy v * dot (Bird.col1 m) (Bird.col1 m)
          + vz v * vz v * dot (Bird.col2 m) (Bird.col2 m)
          + 2 * vx v * vy v * dot (Bird.col0 m) (Bird.col1 m)
          + 2 * vx v * vz v * dot (Bird.col0 m) (Bird.col2 m)
          + 2 * vy v * vz v * dot (Bird.col1 m) (Bird.col2 m))
    by (unfold dot, Bird.mulMV; simpl; ring).
  rewrite H00, H11, H22, H01, H02, H12. unfold dot. ring.
Qed.

Lemma bird_scale_range (birdVel : vec3) : 0.8 <= Bird.scale birdVel <= 1.2.
Proof.
  unfold Bird.scale.
  pose proof (smoothstep_range 0.0 50.0 (length birdVel)). lra.
Qed.

(** X18: the vertex shader is defined for every bird state and every vertex with
    a nonzero normal.  It places the vertex rigidly: at the distance
    [scale * |position|] from the bird's position, with
    [0.8 <= scale <= 1.2], and the normal it passes on has length 1. *)
Theorem bird_vertex_rigid (W H : Z) (uTexturePosition uTextureVelocity : Texture)
    (reference : Q * Q) (position normal : vec3) :
  normal <> zero ->
  let birdPos := xyz (texture2D W H uTexturePosition reference) in
  let birdVel := xyz (texture2D W H uTextureVelocity reference) in
  exists out,
    Bird.main W H uTexturePosition uTextureVelocity reference position normal
    = Some out
    /\ length (Bird.vWorldPosition out -v birdPos)
       = Bird.scale birdVel * length position
    /\ 0.8 <= Bird.scale birdVel <= 1.2
    /\ length (Bird.vNormal out) = 1.
Proof.
  intros Hn birdPos birdVel. unfold Bird.main. cbv zeta.
  fold birdPos. fold birdVel.
  destruct (rotMat_orthonormal birdVel) as [m [-> [Ho _]]].
  cbn [bind].
  assert (Hln : length (Bird.mulMV m normal) <> 0).
  { rewrite mulMV_isometry by exact Ho.
    intros E. apply length_zero_iff in E. contradiction. }
  rewrite normalize_defined by exact Hln. cbn [bind].
  eexists. split; [reflexivity |].
  cbn [Bird.vWorldPosition Bird.vNormal].
  pose proof (bird_scale_range birdVel) as Hs.
  split; [| split; [exact Hs | now apply length_unit]].
  replace (Bird.mulMV m (position *s Bird.scale birdVel) +v birdPos -v birdPos)
    with (Bird.mulMV m (position *s Bird.scale birdVel)) by (vec_eq; ring).
  rewrite mulMV_isometry by exact Ho.
  rewrite length_scale, Rabs_pos_eq by lra. ring.
Qed.

Lemma bird_vertex_rigid_witness :
  let birdPos :=
    xyz (texture2D 512 512 (fun _ _ => mkVec4 (mkVec3 1 2 3) 1)
                   (Bird.reference 512 512 0)) in
  let birdVel :=
    xyz (texture2D 512 512 (fun _ _ => mkVec4 zero 1)
                   (Bird.reference 512 512 0)) in
  exists out,
    Bird.main 512 512 (fun _ _ => mkVec4 (mkVec3 1 2 3) 1)
      (fun _ _ => mkVec4 zero 1) (Bird.reference 512 512 0)
      (mkVec3 0 1 0) (mkVec3 1 0 0)
    = Some out
    /\ length (Bird.vWorldPosition out -v birdPos)
       = Bird.scale birdVel * length (mkVec3 0 1 0)
    /\ 0.8 <= Bird.scale birdVel <= 1.2
    /\ length (Bird.vNormal out) = 1.
Proof.
  apply (bird_vertex_rigid 512 512 (fun _ _ => mkVec4 (mkVec3 1 2 3) 1)
           (fun _ _ => mkVec4 zero 1) (Bird.reference 512 512 0)
           (mkVec3 0 1 0) (mkVec3 1 0 0)).
  intros E. apply (f_equal vx) in E. simpl in E. lra.
Defined.

(* ------------------------------------------------------------------ *)
(** ** The initial textures, draw by draw *)

Section FillTrace.

Variable step : Rng -> list R -> nat -> list R * Rng.
Variable c : nat.
Variable val : (nat -> R) -> nat -> vec3.

Hypothesis step_eq :
  forall g d i,
    step g d i
    = (store (store (store (store d (i + 0) (vx (val (draws g) (taken g))))
                           (i + 1) (vy (val (draws g) (taken g))))
                    (i + 2) (vz (val (draws g) (taken g))))
             (i + 3) 1.0,
       mkRng (draws g) (c + taken g)).

(** The loop started at agent [k] of [m], with enough iterations allowed:
    agent [j >= k] gets the value of the draws from number
    [c * (j - k)] on, counted from the state of the generator at the start,
    and the generator ends [c * (m - k)] draws later. *)
Lemma fillFrom_trace (n : nat) :
  forall (g : Rng) (d : list R) (k m : nat),
    List.length d = (4 * m)%nat -> (k <= m)%nat -> (m - k <= n)%nat ->
    List.length (fst (fillFrom step n g d (4 * k))) = (4 * m)%nat
    /\ draws (snd (fillFrom step n g d (4 * k))) = draws g
    /\ taken (snd (fillFrom step n g d (4 * k))) = (c * (m - k) + taken g)%nat
    /\ forall j, (j < m)%nat ->
         ((j < k)%nat ->
          agentVec (fst (fillFrom step n g d (4 * k))) j = agentVec d j
          /\ nth (4 * j + 3) (fst (fillFrom step n g d (4 * k))) 0
             = nth (4 * j + 3) d 0)
         /\ ((k <= j)%nat ->
             agentVec (fst (fillFrom step n g d (4 * k))) j
             = val (draws g) (c * (j - k) + taken g)
             /\ nth (4 * j + 3) (fst (fillFrom step n g d (4 * k))) 0 = 1).
Proof.
  induction n as [| n IH]; intros g d k m Hlen Hk Hn.
  - assert (k = m) by lia. subst k. cbn [fillFrom fst snd].
    rewrite Nat.sub_diag, Nat.mul_0_r.
    repeat split; auto; lia.
  - cbn [fillFrom]. destruct (4 * k <? List.length d)%nat eqn:Hlt.
    + apply Nat.ltb_lt in Hlt. rewrite step_eq.
      set (v := val (draws g) (taken g)).
      set (d1 := store (store (store (store d (4 * k + 0) (vx v))
                                     (4 * k + 1) (vy v))
                              (4 * k + 2) (vz v))
                       (4 * k + 3) 1.0).
      replace (4 * k + 4)%nat with (4 * S k)%nat by lia.
      assert (Hlen1 : List.length d1 = (4 * m)%nat).
      { unfold d1. now rewrite !store_length. }
      destruct (IH (mkRng (draws g) (c + taken g)) d1 (S k) m Hlen1
                   ltac:(lia) ltac:(lia)) as [Hl [Hd [Ht Hj]]].
      cbn [draws taken] in Hd, Ht, Hj.
      split; [exact Hl |]. split; [exact Hd |].
      split.
      { rewrite Ht. replace (m - k)%nat with (S (m - S k)) by lia.
        rewrite Nat.mul_succ_r. lia. }
      intros j Hjm. destruct (Hj j Hjm) as [Hbefore Hfrom]. split.
      * intros Hjk. destruct (Hbefore ltac:(lia)) as [Ha Hw].
        rewrite Ha, Hw. unfold agentVec, d1.
        rewrite !(nth_stored_other d (4 * k)) by lia. auto.
      * intros Hjk. destruct (Nat.eq_dec j k) as [-> | Hne].
        -- destruct (Hbefore ltac:(lia)) as [Ha Hw]. rewrite Ha, Hw.
           rewrite Nat.sub_diag, Nat.mul_0_r. cbn [Nat.add]. split.
           ++ unfold d1. rewrite agentVec_stored by lia.
              fold v. now destruct v.
           ++ unfold d1. rewrite nth_store_same by (rewrite !store_length; lia).
              lra.
        -- destruct (Hfrom ltac:(lia)) as [Ha Hw]. rewrite Ha, Hw.
           split; [| reflexivity]. f_equal.
           replace (j - k)%nat with (S (j - S k)) by lia.
           rewrite Nat.mul_succ_r. lia.
    + apply Nat.ltb_ge in Hlt. assert (k = m) by lia. subst k.
      cbn [fst snd]. rewrite Nat.sub_diag, Nat.mul_0_r.
      repeat split; auto; lia.
Qed.

End FillTrace.

(** X19: the two initialisers run one after the other on arrays of [m] texels
    each, as in [main.ts]: agent [j] gets the position computed from the
    draws number [3 j], [3 j + 1], [3 j + 2] and the velocity computed from
    the draws number [3 m + 2 j], [3 m + 2 j + 1] (counted from the state of
    [Math.random] at the start); the fourth channel of every texel is 1, the
    arrays keep their length, and [5 m] draws are taken in all. *)
Theorem initial_textures_trace (g : Rng) (dtPosition dtVelocity : list R)
    (m j : nat) :
  List.length dtPosition = (4 * m)%nat ->
  List.length dtVelocity = (4 * m)%nat ->
  (j < m)%nat ->
  let '(positions, g1) := fillPositionTexture g dtPosition in
  let '(velocities, g2) := fillVelocityTexture g1 dtVelocity in
  agentVec positions j = drawnPosition (draws g) (3 * j + taken g)
  /\ agentVec velocities j = drawnVelocity (draws g) (3 * m + 2 * j + taken g)
  /\ nth (4 * j + 3) positions 0 = 1
  /\ nth (4 * j + 3) velocities 0 = 1
  /\ List.length positions = (4 * m)%nat
  /\ List.length velocities = (4 * m)%nat
  /\ draws g2 = draws g
  /\ taken g2 = (5 * m + taken g)%nat.
Proof.
  intros HlP HlV Hj.
  pose proof (fillFrom_trace fillPositionStep 3 drawnPosition
                ltac:(reflexivity) (List.length dtPosition) g dtPosition 0 m
                HlP ltac:(lia) ltac:(lia)) as HP.
  unfold fillPositionTexture, fillVelocityTexture.
  change (4 * 0)%nat with 0%nat in HP.
  destruct (fillFrom fillPositionStep (List.length dtPosition) g dtPosition 0)
    as [positions g1].
  cbn [fst snd] in HP. destruct HP as [HPl [HPd [HPt HPj]]].
  pose proof (fillFrom_trace fillVelocityStep 2 drawnVelocity
                ltac:(reflexivity) (List.length dtVelocity) g1 dtVelocity 0 m
                HlV ltac:(lia) ltac:(lia)) as HV.
  change (4 * 0)%nat with 0%nat in HV.
  destruct (fillFrom fillVelocityStep (List.length dtVelocity) g1 dtVelocity 0)
    as [velocities g2].
  cbn [fst snd] in HV. destruct HV as [HVl [HVd [HVt HVj]]].
  destruct (HPj j Hj) as [_ HPj']. destruct (HPj' ltac:(lia)) as [HPa HPw].
  destruct (HVj j Hj) as [_ HVj']. destruct (HVj' ltac:(lia)) as [HVa HVw].
  rewrite Nat.sub_0_r in HPa, HVa, HPt, HVt.
  repeat split; try assumption.
  - rewrite HVa, HPd, HPt. f_equal. lia.
  - congruence.
  - lia.
Qed.

Lemma initial_textures_trace_witness :
  let '(positions, g1) :=
    fillPositionTexture (mkRng (fun _ => 1 / 2) 0) [0; 0; 0; 0; 0; 0; 0; 0] in
  let '(velocities, g2) := fillVelocityTexture g1 [0; 0; 0; 0; 0; 0; 0; 0] in
  agentVec positions 1 = drawnPosition (fun _ => 1 / 2) (3 * 1 + 0)
  /\ agentVec velocities 1 = drawnVelocity (fun _ => 1 / 2) (3 * 2 + 2 * 1 + 0)
  /\ nth (4 * 1 + 3) positions 0 = 1
  /\ nth (4 * 1 + 3) velocities 0 = 1
  /\ List.length positions = (4 * 2)%nat
  /\ List.length velocities = (4 * 2)%nat
  /\ draws g2 = (fun _ => 1 / 2)
  /\ taken g2 = (5 * 2 + 0)%nat.
Proof.
  apply (initial_textures_trace (mkRng (fun _ => 1 / 2) 0)
           [0; 0; 0; 0; 0; 0; 0; 0] [0; 0; 0; 0; 0; 0; 0; 0] 2 1);
    [reflexivity | reflexivity | lia].
Defined.

(* ------------------------------------------------------------------ *)
(** ** Containment, self reads and the dead self test *)

(** X20: with the four weights at 0, an agent at rest further than
    [0.7 * boundaryRadius] from the origin leaves the tick with a velocity
    that points straight at the origin. *)
Theorem resting_agent_turns_inward (W H : Z) (cur : Generation) (u : Uniforms)
    (x y : Z) :
  (0 <= x < W)%Z -> (0 <= y < H)%Z ->
  uSeparationWeight u = 0 -> uAlignmentWeight u = 0 ->
  uCohesionWeight u = 0 -> uTurbulence u = 0 ->
  0 < uBoundaryRadius u -> 0 < uMaxSpeed u -> 0 < uDelta u ->
  xyz (texturePosition cur x y) <> splat (- 0.0001) ->
  xyz (textureVelocity cur x y) = zero ->
  0.7 * uBoundaryRadius u < length (xyz (texturePosition cur x y)) ->
  exists k out,
    0 < k
    /\ computeVelocity W H cur u x y = Some out
    /\ xyz out = xyz (texturePosition cur x y) *s (- k).
Proof.
  intros Hx Hy Hs Ha Hc Ht HR HM Hdt Hp Hv Hr.
  rewrite computeVelocity_unfold by assumption.
  rewrite acceleration_zero_force by assumption.
  rewrite applyBoundary_outside by lra. cbn [bind]. cbv zeta.
  set (pos := xyz (texturePosition cur x y)) in *.
  set (t := clamp ((length pos - uBoundaryRadius u * 0.7)
                   / (uBoundaryRadius u * 0.3)) 0 1).
  assert (Htpos : 0 < t).
  { unfold t, clamp. apply Rmin_glb_lt; [| lra].
    eapply Rlt_le_trans; [| apply Rmax_l].
    apply Rdiv_lt_0_compat; lra. }
  assert (Hstr : 0 < t * t * t * uMaxSpeed u * 2).
  { repeat apply Rmult_lt_0_compat; lra. }
  rewrite Hv.
  destruct (clampSpeed_scales u
              (zero +v (zero -v pos /s length pos *s (t * t * t * uMaxSpeed u * 2))
                       *s uDelta u) HM) as [k' [Hk' ->]].
  cbn [bind].
  exists (t * t * t * uMaxSpeed u * 2 * uDelta u * k' / length pos).
  eexists. split; [| split; [reflexivity |]].
  - apply Rdiv_lt_0_compat; [| lra].
    repeat apply Rmult_lt_0_compat; lra.
  - cbn [xyz]. vec_eq; field; lra.
Qed.

Lemma resting_agent_turns_inward_witness :
  exists k out,
    0 < k
    /\ computeVelocity 512 512 (uniformGeneration (mkVec3 350 0 0) zero)
         (zeroForceUniforms 0.05 0) 0 0 = Some out
    /\ xyz out
       = xyz (texturePosition (uniformGeneration (mkVec3 350 0 0) zero) 0%Z 0%Z)
         *s (- k).
Proof.
  apply (resting_agent_turns_inward 512 512
           (uniformGeneration (mkVec3 350 0 0) zero)
           (zeroForceUniforms 0.05 0) 0 0);
    try lia; try reflexivity;
    cbn [uniformGeneration texturePosition textureVelocity xyz];
    try (simpl; lra).
  - apply not_offset_origin_x. lra.
  - rewrite length_x by lra. simpl. lra.
Defined.

(** X21: both compute shaders read, through [uv = gl_FragCoord.xy / resolution.xy],
    the texel of the agent they are run for. *)
Theorem fragment_reads_own_texel (W H x y : Z) (tex : Texture) :
  (0 <= x < W)%Z -> (0 <= y < H)%Z ->
  texture2D W H tex (VelocityShader.uv W H (fragCoord x y)) = tex x y
  /\ texture2D W H tex (PositionShader.uv W H (fragCoord x y)) = tex x y.
Proof.
  intros Hx Hy. split; [now apply texture2D_self |].
  change (PositionShader.uv W H (fragCoord x y))
    with (VelocityShader.uv W H (fragCoord x y)).
  now apply texture2D_self.
Qed.

Lemma fragment_reads_own_texel_witness :
  texture2D 512 512 (fun _ _ => mkVec4 zero 1)
    (VelocityShader.uv 512 512 (fragCoord 3 5))
  = (fun _ _ => mkVec4 zero 1) 3%Z 5%Z
  /\ texture2D 512 512 (fun _ _ => mkVec4 zero 1)
       (PositionShader.uv 512 512 (fragCoord 3 5))
     = (fun _ _ => mkVec4 zero 1) 3%Z 5%Z.
Proof.
  apply (fragment_reads_own_texel 512 512 3 5 (fun _ _ => mkVec4 zero 1)); lia.
Defined.

(** X22: for no fragment and no iteration does the "Skip self" test hold: the
    loop reads a texel in each of its 300 iterations, on every grid. *)
Theorem skip_self_never_taken (W H x y : Z) (tp tv : Texture) :
  (forall i, isSelf W H i (fragCoord x y) = false)
  /\ List.length (sampledNeighbors W H tp tv (fragCoord x y)) = 300%nat.
Proof.
  split; [intros i; apply isSelf_fragCoord |].
  unfold sampledNeighbors.
  assert (Hlen : forall l : list Z,
            List.length
              (flat_map
                 (fun i => if isSelf W H i (fragCoord x y) then []
                           else [(xyz (texture2D W H tp (neighborUV W H i)),
                                  xyz (texture2D W H tv (neighborUV W H i)))])
                 l)
            = List.length l).
  { induction l as [| i l IH]; simpl; [reflexivity |].
    rewrite isSelf_fragCoord. simpl. now rewrite IH. }
  rewrite Hlen. reflexivity.
Qed.
